(** * A fixed-size-object memory pool and its allocator adapter

    Shallow embedding of [src/Allocator.h] (namespace [POC]): the class
    templates [MemoryPool<T, growSize>] and [Allocator<T, growSize>].

    Pointers are block-relative: a [T*] or [Chunk*] obtained from a pool is a
    pair of the [Block] object it points into and a byte offset inside that
    block's [data] array.  [std::size_t] is a 64-bit unsigned integer, kept as
    a [Z] with its wrap-around written out. *)

From stdpp Require Import base countable gmap list.
From Stdlib Require Import ZArith Lia.

Local Open Scope Z_scope.

(** ** Template parameters *)

(** One instantiation of the two templates: the element type [T], the sizes
    the compiler assigns to [T] and to [Chunk] (a single [Chunk*]), and the
    non-type parameter [growSize]. *)
Class Instantiation : Type := {
  T : Type;
  sizeof_T : Z;
  sizeof_Chunk : Z;
  growSize : Z;
}.

(** [std::size_t] arithmetic. *)
Definition size_modulus : Z := 2 ^ 64.
Definition wrap (z : Z) : Z := z mod size_modulus.

(** ** Addresses *)

(** Address of a byte of the [data] array of a [Block]. *)
Record ptr : Type := Ptr { blk : nat; off : Z }.

#[global] Instance ptr_eq_dec : EqDecision ptr.
Proof. solve_decision. Defined.

#[global] Instance ptr_countable : Countable ptr.
Proof.
  apply (inj_countable' (λ p, (blk p, off p)) (λ q, Ptr q.1 q.2)).
  by intros [].
Defined.

Section Model.
Context {I : Instantiation}.

(** [Block::chunkSize], line 25. *)
Definition chunkSize : Z :=
  if sizeof_T >? sizeof_Chunk then sizeof_T else sizeof_Chunk.

(** A [Block] object on the free store: its [next] member ([None] is
    [nullptr]) and the extent in bytes of its [data] array. *)
Record Block : Type := mkBlock { next : option nat; data_size : Z }.

(** What the storage of one slot currently holds: a [Chunk] (the free-list
    link), an element of type [T], or nothing meaningful. *)
Inductive Cell : Type :=
| Link (nx : option ptr)
| Payload (v : T)
| Indeterminate.

(** The three data members of [MemoryPool], lines 38-40. *)
Record Pool : Type := mkPool {
  firstFreeChunk : option ptr;
  firstBlock : option nat;
  usedChunks : Z;
}.

(** The free store and the observable history around the pool:
    - [blocks]: the [Block] objects alive (created by [new], not yet deleted);
    - [cells]: the contents of the slots written so far;
    - [fresh]: the identity the next [new Block] gets;
    - [avail]: how many more [Block]s the system can provide before
      [new] throws [std::bad_alloc];
    - [released]: the blocks handed to [delete], latest first;
    - [destroyed]: the addresses at which [~T()] ran, latest first. *)
Record Heap : Type := mkHeap {
  blocks : gmap nat Block;
  cells : gmap ptr Cell;
  fresh : nat;
  avail : nat;
  released : list nat;
  destroyed : list ptr;
}.

Record World : Type := mkWorld { pool : Pool; heap : Heap }.

(** *** Effects: state, [std::bad_alloc], undefined behaviour *)

Inductive result (A : Type) : Type :=
| Ok (a : A) (w : World)      (* normal return *)
| BadAlloc (w : World)        (* std::bad_alloc thrown, state at the throw *)
| Undefined.                  (* undefined behaviour *)
Arguments Ok {A} a w.
Arguments BadAlloc {A} w.
Arguments Undefined {A}.

Definition M (A : Type) : Type := World → result A.

Definition ret {A} (a : A) : M A := λ w, Ok a w.
Definition bind {A B} (m : M A) (k : A → M B) : M B :=
  λ w, match m w with
       | Ok a w' => k a w'
       | BadAlloc w' => BadAlloc w'
       | Undefined => Undefined
       end.
Definition throw_bad_alloc {A} : M A := λ w, BadAlloc w.

(** A pointer used as a condition: true unless it is [nullptr]. *)
Definition non_null {A} (p : option A) : bool :=
  match p with Some _ => true | None => false end.

Definition get {A} (f : Pool → A) : M A := λ w, Ok (f (pool w)) w.
Definition modify_pool (f : Pool → Pool) : M unit :=
  λ w, Ok tt (mkWorld (f (pool w)) (heap w)).

Definition set_firstFreeChunk (v : option ptr) : M unit :=
  modify_pool (λ s, mkPool v (firstBlock s) (usedChunks s)).
Definition set_firstBlock (v : option nat) : M unit :=
  modify_pool (λ s, mkPool (firstFreeChunk s) v (usedChunks s)).
Definition set_usedChunks (v : Z) : M unit :=
  modify_pool (λ s, mkPool (firstFreeChunk s) (firstBlock s) v).

(** *** The free store *)

(** [p] is the first byte of a slot of a live block. *)
Definition slot_ok (h : Heap) (p : ptr) : bool :=
  match blocks h !! blk p with
  | Some B =>
      (0 <=? off p) && (off p mod chunkSize =? 0)
      && (off p + chunkSize <=? data_size B)
  | None => false
  end.

(** [new Block(pnext)], lines 26-32: [data] has [chunkSize * growSize]
    bytes, [next] is initialised to [pnext]. *)
Definition new_Block (pnext : option nat) : M nat :=
  λ w, let h := heap w in
       match avail h with
       | O => BadAlloc w
       | S k =>
           Ok (fresh h)
              (mkWorld (pool w)
                 (mkHeap (<[fresh h := mkBlock pnext (wrap (chunkSize * growSize))]> (blocks h))
                    (cells h) (S (fresh h)) k (released h) (destroyed h)))
       end.

(** [b->next] for a [Block* b]. *)
Definition Block_next (b : nat) : M (option nat) :=
  λ w, match blocks (heap w) !! b with
       | Some B => Ok (next B) w
       | None => Undefined
       end.

(** [delete b]. *)
Definition delete_Block (b : nat) : M unit :=
  λ w, let h := heap w in
       match blocks h !! b with
       | Some _ =>
           Ok tt (mkWorld (pool w)
                    (mkHeap (delete b (blocks h)) (cells h) (fresh h) (avail h)
                       (b :: released h) (destroyed h)))
       | None => Undefined
       end.

(** [b->getChunk(idx)], lines 33-35. *)
Definition getChunk (b : option nat) (idx : Z) : M ptr :=
  λ w, match b with
       | Some b' =>
           match blocks (heap w) !! b' with
           | Some _ => Ok (Ptr b' (wrap (chunkSize * idx))) w
           | None => Undefined
           end
       | None => Undefined
       end.

(** Reading [p->next] through a [Chunk* p]: defined when the slot holds a
    link. *)
Definition load_next (p : ptr) : M (option ptr) :=
  λ w, if slot_ok (heap w) p then
         match cells (heap w) !! p with
         | Some (Link nx) => Ok nx w
         | _ => Undefined
         end
       else Undefined.

Definition write_cell (p : ptr) (c : Cell) : M unit :=
  λ w, if slot_ok (heap w) p then
         let h := heap w in
         Ok tt (mkWorld (pool w)
                  (mkHeap (blocks h) (<[p := c]> (cells h)) (fresh h) (avail h)
                     (released h) (destroyed h)))
       else Undefined.

(** [p->next = v] through a [Chunk* p]. *)
Definition store_next (p : ptr) (v : option ptr) : M unit :=
  write_cell p (Link v).

(** [new (p) T(val)]. *)
Definition placement_new (p : ptr) (val : T) : M unit :=
  write_cell p (Payload val).

(** [p->~T()]: ends the lifetime of the element living at [p]. *)
Definition call_destructor (p : ptr) : M unit :=
  λ w, if slot_ok (heap w) p then
         match cells (heap w) !! p with
         | Some (Payload _) =>
             let h := heap w in
             Ok tt (mkWorld (pool w)
                      (mkHeap (blocks h) (<[p := Indeterminate]> (cells h))
                         (fresh h) (avail h) (released h) (p :: destroyed h)))
         | _ => Undefined
         end
       else Undefined.

End Model.

Arguments Ok {I A} a w.
Arguments BadAlloc {I A} w.
Arguments Undefined {I A}.

Notation "'do' x <- m ; k" := (bind m (λ x, k))
  (at level 10, x name, m at level 100, k at level 200,
   format "'[v' 'do'  x  <-  m ; '/' k ']'").
Notation "m ;; k" := (bind m (λ _, k))
  (at level 100, k at level 200, right associativity).

(** ** [MemoryPool<T, growSize>] *)

Module MemoryPool.
Section MemoryPool.
Context {I : Instantiation}.

(** Default member initialisers, lines 38-40; [MemoryPool() = default]. *)
Definition init : Pool := mkPool None None growSize.

(** [allocate], lines 57-80. *)
Definition allocate : M ptr :=
  do ffc <- get firstFreeChunk;
  match ffc with
  | Some p =>
      do nx <- load_next p;
      set_firstFreeChunk nx;;
      ret p
  | None =>
      do used <- get usedChunks;
      (if used >=? growSize then
         do fb <- get firstBlock;
         do b <- new_Block fb;
         set_firstBlock (Some b);;
         set_usedChunks 0
       else ret tt);;
      do fb <- get firstBlock;
      do idx <- get usedChunks;
      set_usedChunks (wrap (idx + 1));;
      getChunk fb idx
  end.

(** [deallocate], lines 82-90. *)
Definition deallocate (p : ptr) : M unit :=
  do ffc <- get firstFreeChunk;
  store_next p ffc;;
  set_firstFreeChunk (Some p).

(** [~MemoryPool], lines 49-55.  The [while] loop is unrolled [fuel]
    times; [None] means the fuel ran out before the loop ended. *)
Fixpoint destructor (fuel : nat) (w : World) : option (result unit) :=
  match firstBlock (pool w) with
  | None => Some (Ok tt w)
  | Some b =>
      match fuel with
      | O => None
      | S fuel' =>
          match (do tmp <- Block_next b;
                 delete_Block b;;
                 set_firstBlock tmp) w with
          | Ok _ w' => destructor fuel' w'
          | BadAlloc w' => Some (BadAlloc w')
          | Undefined => Some Undefined
          end
      end
  end.

End MemoryPool.
End MemoryPool.

(** ** [Allocator<T, growSize>] *)

Module Allocator.
Section Allocator.
Context {I : Instantiation}.

(** [allocate], lines 119-122; [hint] is [None] for a null pointer. *)
Definition allocate (n : Z) (hint : option ptr) : M ptr :=
  if negb (n =? 1) || non_null hint then throw_bad_alloc
  else MemoryPool.allocate.

(** [deallocate], lines 124-126. *)
Definition deallocate (p : ptr) (n : Z) : M unit :=
  MemoryPool.deallocate p.

(** [construct], lines 128-132. *)
Definition construct (p : ptr) (val : T) : M unit :=
  placement_new p val.

(** [destroy], lines 134-136. *)
Definition destroy (p : ptr) : M unit :=
  call_destructor p.

End Allocator.
End Allocator.

(** ** Well-formed instantiations *)

(** What C++ guarantees of an instantiation that compiles: [sizeof] is never
    zero, an array bound is not zero (line 26 declares
    [data[chunkSize * growSize]]), and the bound of [data] is the product
    itself, not a wrapped value. *)
Class WellFormed (I : Instantiation) : Prop := {
  sizeof_T_pos : 0 < sizeof_T;
  sizeof_Chunk_pos : 0 < sizeof_Chunk;
  growSize_pos : 0 < growSize;
  data_fits : chunkSize * growSize < size_modulus;
}.

(** ** Calls and reachable states *)

Section Calls.
Context {I : Instantiation}.

(** The pool right after construction, with nothing on the free store yet
    and room for [a] more blocks. *)
Definition initial (a : nat) : World :=
  mkWorld MemoryPool.init (mkHeap ∅ ∅ 0 a [] []).

(** The calls a client makes on a pool and on the elements it places in
    the pool's slots. *)
Inductive call : Type :=
| CAllocate
| CDeallocate (p : ptr)
| CConstruct (p : ptr) (val : T)
| CDestroy (p : ptr).

(** Runs one call; the value is the address [allocate] returned. *)
Definition perform (c : call) : M (option ptr) :=
  match c with
  | CAllocate => do p <- MemoryPool.allocate; ret (Some p)
  | CDeallocate p => MemoryPool.deallocate p;; ret None
  | CConstruct p val => Allocator.construct p val;; ret None
  | CDestroy p => Allocator.destroy p;; ret None
  end.

(** [reachable tr w]: the calls of [tr], made in order on a freshly
    constructed pool, lead to [w].  A call that throws leaves the state it
    threw in; a call with undefined behaviour leads nowhere. *)
Inductive reachable : list call → World → Prop :=
| reach_init a : reachable [] (initial a)
| reach_ok tr w c r w' :
    reachable tr w → perform c w = Ok r w' → reachable (tr ++ [c]) w'
| reach_throw tr w c w' :
    reachable tr w → perform c w = BadAlloc w' → reachable (tr ++ [c]) w'.

(** The addresses passed to [destroy] in a trace, in call order. *)
Definition destroy_calls (tr : list call) : list ptr :=
  omap (λ c, match c with CDestroy p => Some p | _ => None end) tr.

(** Removes one occurrence of [p]. *)
Fixpoint remove_one (p : ptr) (l : list ptr) : list ptr :=
  match l with
  | [] => []
  | q :: l' => if decide (q = p) then l' else q :: remove_one p l'
  end.

(** [run w live]: [w] is reached from a fresh pool by calls of a client
    that only deallocates, constructs in and destroys slots it currently
    holds; [live] lists the addresses returned by [allocate] and not yet
    given back, one entry per [allocate] call. *)
Inductive run : World → list ptr → Prop :=
| run_init a : run (initial a) []
| run_allocate w live p w' :
    run w live → MemoryPool.allocate w = Ok p w' → run w' (p :: live)
| run_allocate_throw w live w' :
    run w live → MemoryPool.allocate w = BadAlloc w' → run w' live
| run_deallocate w live p w' :
    run w live → p ∈ live → MemoryPool.deallocate p w = Ok tt w' →
    run w' (remove_one p live)
| run_construct w live p val w' :
    run w live → p ∈ live → Allocator.construct p val w = Ok tt w' →
    run w' live
| run_destroy w live p w' :
    run w live → p ∈ live → Allocator.destroy p w = Ok tt w' →
    run w' live.

(** [n] consecutive [allocate] calls; the addresses come back in call
    order. *)
Fixpoint allocate_n (n : nat) : M (list ptr) :=
  match n with
  | O => ret []
  | S n' => do p <- MemoryPool.allocate; do ps <- allocate_n n'; ret (p :: ps)
  end.

(** Number of [Block] objects alive. *)
Definition slab_count (w : World) : nat := size (blocks (heap w)).

(** *** Invariants *)

(** Address of slot [i] of block [b]. *)
Definition slot (b : nat) (i : Z) : ptr := Ptr b (chunkSize * i).

(** The latest of [n] blocks numbered from 0; also the block before
    block [n]. *)
Definition front (n : nat) : option nat :=
  match n with O => None | S j => Some j end.

(** The pool owns the blocks [0 .. n-1] and nothing else is alive; each is
    linked to the block created just before it, and the pool points to the
    latest. *)
Definition owns_slabs (n : nat) (w : World) : Prop :=
  firstBlock (pool w) = front n ∧
  ∀ i, blocks (heap w) !! i =
       if decide (i < n)%nat
       then Some (mkBlock (front i) (wrap (chunkSize * growSize)))
       else None.

Definition cursor_ok (w : World) : Prop :=
  0 ≤ usedChunks (pool w) ≤ growSize ∧
  (firstBlock (pool w) = None → usedChunks (pool w) = growSize).

(** [p] is a slot that bump allocation has already handed out: any slot
    of an older block, a slot below the cursor in the front block. *)
Definition carved (w : World) (p : ptr) : Prop :=
  ∃ b i, p = slot b i ∧ 0 ≤ i ∧ (b < fresh (heap w))%nat ∧
         i < (if decide (firstBlock (pool w) = Some b)
              then usedChunks (pool w) else growSize).

(** The free list starting at [head] threads through exactly the slots
    [fl], in this order. *)
Fixpoint free_list (ce : gmap ptr Cell) (head : option ptr) (fl : list ptr) : Prop :=
  match fl with
  | [] => head = None
  | p :: fl' => head = Some p ∧ ∃ nx, ce !! p = Some (Link nx) ∧ free_list ce nx fl'
  end.

(** Live slots and free slots are carved slots, all different. *)
Definition disjoint_inv (w : World) (live : list ptr) : Prop :=
  ∃ fl, free_list (cells (heap w)) (firstFreeChunk (pool w)) fl ∧
        NoDup (live ++ fl) ∧ Forall (carved w) (live ++ fl).

(** The pool after [c] calls of [allocate] and nothing else, on a free
    store that had room for [a] blocks, as long as [c ≤ growSize + 1]. *)
Definition after_allocations (a c : nat) (w : World) : Prop :=
  firstFreeChunk (pool w) = None ∧
  owns_slabs (fresh (heap w)) w ∧
  (fresh (heap w) + avail (heap w) = a)%nat ∧
  fresh (heap w) =
    (if decide (c = 0%nat) then 0%nat
     else if decide (Z.of_nat c ≤ growSize) then 1%nat else 2%nat) ∧
  usedChunks (pool w) =
    (if decide (c = 0%nat) then growSize
     else if decide (Z.of_nat c ≤ growSize) then Z.of_nat c else 1).

(** A client giving back the slots [ps], first to last. *)
Fixpoint deallocate_list (ps : list ptr) : M unit :=
  match ps with
  | [] => ret tt
  | p :: ps' => MemoryPool.deallocate p;; deallocate_list ps'
  end.

(** Number of slots bump allocation has handed out so far: all slots of the
    blocks behind the front block, and those below the cursor in the front
    block. *)
Definition carved_total (w : World) : Z :=
  match firstBlock (pool w) with
  | None => 0
  | Some b => Z.of_nat b * growSize + usedChunks (pool w)
  end.

(** Address returned by the [k]-th call (counting from 0) of [allocate] on a
    fresh pool when nothing is deallocated in between. *)
Definition bump_address (k : nat) : ptr :=
  slot (Z.to_nat (Z.of_nat k / growSize)) (Z.of_nat k mod growSize).

(** The pool after [c] calls of [allocate] and no [deallocate], on a free
    store that had room for [a] blocks at the start; no bound on [c]. *)
Definition bumping (a c : nat) (w : World) : Prop :=
  firstFreeChunk (pool w) = None ∧
  owns_slabs (fresh (heap w)) w ∧
  cursor_ok w ∧
  (firstBlock (pool w) ≠ None → 1 ≤ usedChunks (pool w)) ∧
  (fresh (heap w) + avail (heap w) = a)%nat ∧
  carved_total w = Z.of_nat c.

End Calls.

(** ** A small instantiation

    [Allocator<int32_t, 2>] on an LP64 platform: four-byte elements,
    eight-byte links, two slots per block. *)

Definition small : Instantiation :=
  {| T := Z; sizeof_T := 4; sizeof_Chunk := 8; growSize := 2 |}.

(** Its first block, and the second one, linked to the first. *)
Definition small_block0 : @Block := mkBlock None 16.
Definition small_block1 : @Block := mkBlock (Some 0%nat) 16.

(** States of a [small] pool on a free store with room for three blocks:
    after one [allocate]; after a second; after [deallocate] of the first
    slot; after a third [allocate]. *)
Definition small_w1 : @World small :=
  mkWorld (mkPool None (Some 0%nat) 1)
    (mkHeap {[0%nat := small_block0]} ∅ 1 2 [] []).
Definition small_w2 : @World small :=
  mkWorld (mkPool None (Some 0%nat) 2)
    (mkHeap {[0%nat := small_block0]} ∅ 1 2 [] []).
Definition small_w3 : @World small :=
  mkWorld (mkPool (Some (Ptr 0 0)) (Some 0%nat) 2)
    (mkHeap {[0%nat := small_block0]} {[Ptr 0 0 := Link None]} 1 2 [] []).
Definition small_w4 : @World small :=
  mkWorld (mkPool None (Some 0%nat) 2)
    (mkHeap {[0%nat := small_block0]} {[Ptr 0 0 := Link None]} 1 2 [] []).

(** The [small] pool after a third [allocate] with nothing given back: the
    second block has been created. *)
Definition small_w6 : @World small :=
  mkWorld (mkPool None (Some 1%nat) 1)
    (mkHeap (<[1%nat := small_block1]> {[0%nat := small_block0]}) ∅ 2 1 [] []).

(** An instantiation with [growSize = 0].  ISO C++ rejects it (the bound of
    [data] would be zero); compilers that allow zero-length arrays accept it. *)
Definition degenerate : Instantiation :=
  {| T := Z; sizeof_T := 4; sizeof_Chunk := 8; growSize := 0 |}.

(** After [allocate], [construct] and [destroy] in the slot obtained, then two
    more [allocate]: two blocks, one destructor call. *)
Definition small_trace : list (@call small) :=
  [@CAllocate small; @CConstruct small (Ptr 0 0) 7; CDestroy (Ptr 0 0); CAllocate; CAllocate].
Definition small_w5 : @World small :=
  mkWorld (mkPool None (Some 1%nat) 1)
    (mkHeap (<[1%nat := small_block1]> {[0%nat := small_block0]})
       (<[Ptr 0 0 := Indeterminate]> {[Ptr 0 0 := @Payload small 7]}) 2 1 [] [Ptr 0 0]).

(** ** The operations, case by case *)

Section Unfold.
Context {I : Instantiation}.

Lemma chunkSize_max : chunkSize = Z.max sizeof_T sizeof_Chunk.
Proof. unfold chunkSize. destruct (Z.gtb_spec sizeof_T sizeof_Chunk); lia. Qed.

Lemma wrap_small z : 0 ≤ z < size_modulus → wrap z = z.
Proof. intros. unfold wrap. by apply Z.mod_small. Qed.

Lemma wrap_0 : wrap 0 = 0.
Proof. reflexivity. Qed.

Lemma wrap_1 : wrap 1 = 1.
Proof. reflexivity. Qed.

(** [allocate] with the monad unfolded: free-list pop, slab creation, bump. *)
Lemma allocate_unfold w :
  MemoryPool.allocate w =
  let s := pool w in let h := heap w in
  match firstFreeChunk s with
  | Some p =>
      if slot_ok h p then
        match cells h !! p with
        | Some (Link nx) => Ok p (mkWorld (mkPool nx (firstBlock s) (usedChunks s)) h)
        | _ => Undefined
        end
      else Undefined
  | None =>
      if usedChunks s >=? growSize then
        match avail h with
        | O => BadAlloc w
        | S k =>
            Ok (Ptr (fresh h) (wrap (chunkSize * 0)))
               (mkWorld (mkPool None (Some (fresh h)) (wrap (0 + 1)))
                  (mkHeap (<[fresh h := mkBlock (firstBlock s) (wrap (chunkSize * growSize))]> (blocks h))
                     (cells h) (S (fresh h)) k (released h) (destroyed h)))
        end
      else
        match firstBlock s with
        | Some b =>
            match blocks h !! b with
            | Some _ =>
                Ok (Ptr b (wrap (chunkSize * usedChunks s)))
                   (mkWorld (mkPool None (Some b) (wrap (usedChunks s + 1))) h)
            | None => Undefined
            end
        | None => Undefined
        end
  end.
Proof.
  destruct w as [[ffc fb used] [bl ce fr av rel des]].
  unfold MemoryPool.allocate, bind, get, load_next; simpl.
  destruct ffc as [p|]; simpl.
  - destruct (slot_ok _ p); [|done].
    destruct (ce !! p) as [[nx| |]|]; done.
  - destruct (used >=? growSize); simpl.
    + unfold new_Block; simpl. destruct av as [|k]; [done|]. simpl.
      unfold getChunk. simpl. by rewrite lookup_insert_eq.
    + unfold getChunk; simpl. destruct fb as [b|]; [|done].
      destruct (bl !! b); done.
Qed.

Lemma deallocate_unfold p w :
  MemoryPool.deallocate p w =
  let s := pool w in let h := heap w in
  if slot_ok h p then
    Ok tt (mkWorld (mkPool (Some p) (firstBlock s) (usedChunks s))
             (mkHeap (blocks h) (<[p := Link (firstFreeChunk s)]> (cells h))
                (fresh h) (avail h) (released h) (destroyed h)))
  else Undefined.
Proof.
  destruct w as [[ffc fb used] [bl ce fr av rel des]].
  unfold MemoryPool.deallocate, bind, get, store_next, write_cell; simpl.
  by destruct (slot_ok _ p).
Qed.

Lemma construct_unfold p val w :
  Allocator.construct p val w =
  let h := heap w in
  if slot_ok h p then
    Ok tt (mkWorld (pool w)
             (mkHeap (blocks h) (<[p := Payload val]> (cells h))
                (fresh h) (avail h) (released h) (destroyed h)))
  else Undefined.
Proof. reflexivity. Qed.

Lemma destroy_unfold p w :
  Allocator.destroy p w =
  let h := heap w in
  if slot_ok h p then
    match cells h !! p with
    | Some (Payload _) =>
        Ok tt (mkWorld (pool w)
                 (mkHeap (blocks h) (<[p := Indeterminate]> (cells h))
                    (fresh h) (avail h) (released h) (p :: destroyed h)))
    | _ => Undefined
    end
  else Undefined.
Proof. reflexivity. Qed.

End Unfold.

(** ** Invariants of reachable states *)

Section Reachable.
Context {I : Instantiation}.

Lemma perform_Ok c w r w' :
  perform c w = Ok r w' →
  match c with
  | CAllocate => ∃ p, r = Some p ∧ MemoryPool.allocate w = Ok p w'
  | CDeallocate p => MemoryPool.deallocate p w = Ok tt w'
  | CConstruct p val => Allocator.construct p val w = Ok tt w'
  | CDestroy p => Allocator.destroy p w = Ok tt w'
  end.
Proof.
  destruct c; unfold perform, bind, ret; intros H.
  - destruct (MemoryPool.allocate w) as [p w1| |]; simplify_eq. eauto.
  - destruct (MemoryPool.deallocate p w) as [[] w1| |]; by simplify_eq.
  - destruct (Allocator.construct p val w) as [[] w1| |]; by simplify_eq.
  - destruct (Allocator.destroy p w) as [[] w1| |]; by simplify_eq.
Qed.

Lemma allocate_throw w w' : MemoryPool.allocate w = BadAlloc w' → w' = w.
Proof.
  rewrite allocate_unfold. cbv zeta. intros H.
  repeat case_match; by simplify_eq.
Qed.

Lemma perform_throw c w w' : perform c w = BadAlloc w' → w' = w.
Proof.
  destruct c; unfold perform, bind, ret; intros H.
  - destruct (MemoryPool.allocate w) as [p1 w1|w1|] eqn:E; simplify_eq.
    by apply allocate_throw.
  - rewrite deallocate_unfold in H. cbv zeta in H.
    destruct (slot_ok _ _); by simplify_eq.
  - rewrite construct_unfold in H. cbv zeta in H.
    destruct (slot_ok _ _); by simplify_eq.
  - rewrite destroy_unfold in H. cbv zeta in H.
    repeat case_match; by simplify_eq.
Qed.

Lemma front_lt i j : front i = Some j → (j < i)%nat.
Proof. destruct i; intros; simplify_eq/=; lia. Qed.

Lemma owns_slabs_grow w k :
  owns_slabs (fresh (heap w)) w →
  owns_slabs (S (fresh (heap w)))
    (mkWorld (mkPool None (Some (fresh (heap w))) (wrap (0 + 1)))
       (mkHeap (<[fresh (heap w) := mkBlock (firstBlock (pool w)) (wrap (chunkSize * growSize))]>
                  (blocks (heap w)))
          (cells (heap w)) (S (fresh (heap w))) k (released (heap w))
          (destroyed (heap w)))).
Proof.
  intros [Hfb Hbl]. split; [done|]. simpl. intros i.
  destruct (decide (i = fresh (heap w))) as [->|Hne].
  - rewrite lookup_insert_eq, Hfb. by rewrite decide_True by lia.
  - rewrite lookup_insert_ne by done. rewrite Hbl.
    repeat case_decide; try done; lia.
Qed.

Lemma owns_slabs_frame n w w' :
  owns_slabs n w →
  firstBlock (pool w') = firstBlock (pool w) →
  blocks (heap w') = blocks (heap w) →
  owns_slabs n w'.
Proof. intros [Hfb Hbl] E1 E2. split; [congruence|]. by rewrite E2. Qed.

(** The blocks alive in a reachable state are the ones the pool created,
    none has been deleted, and [~T()] ran exactly for the [destroy] calls. *)
Lemma reachable_slabs tr w :
  reachable tr w →
  owns_slabs (fresh (heap w)) w ∧ released (heap w) = [] ∧
  destroyed (heap w) = rev (destroy_calls tr).
Proof.
  induction 1 as [a|tr w c r w' Hr IH Hc|tr w c w' Hr IH Hc].
  - split; [|done]. split; [done|]. intros i.
    change (blocks (heap (initial a))) with (∅ : gmap nat Block).
    rewrite lookup_empty. change (fresh (heap (initial a))) with 0%nat.
    destruct (decide (i < 0)%nat); [lia|done].
  - destruct IH as (Hown & Hrel & Hdes).
    unfold destroy_calls in *. rewrite omap_app, rev_app_distr. simpl.
    apply perform_Ok in Hc. destruct c as [|p|p val|p].
    + destruct Hc as (p & -> & Hc). rewrite allocate_unfold in Hc.
      cbv zeta in Hc. repeat case_match; simplify_eq; simpl.
      * split; [|done]. by eapply owns_slabs_frame.
      * split; [by apply owns_slabs_grow|done].
      * split; [|done]. by eapply owns_slabs_frame.
    + rewrite deallocate_unfold in Hc. cbv zeta in Hc.
      case_match; simplify_eq; simpl.
      split; [|done]. by eapply owns_slabs_frame.
    + rewrite construct_unfold in Hc. cbv zeta in Hc.
      case_match; simplify_eq; simpl.
      split; [|done]. by eapply owns_slabs_frame.
    + rewrite destroy_unfold in Hc. cbv zeta in Hc.
      repeat case_match; simplify_eq; simpl.
      split; [by eapply owns_slabs_frame|]. by rewrite Hdes.
  - pose proof Hc as Hw. apply perform_throw in Hw as ->.
    destruct IH as (Hown & Hrel & Hdes). split_and!; [done..|].
    unfold destroy_calls in *. rewrite omap_app, rev_app_distr. simpl.
    destruct c as [|p|p val|p]; simpl; try done.
    (* [destroy] does not throw *)
    unfold perform, bind in Hc. rewrite destroy_unfold in Hc. cbv zeta in Hc.
    repeat case_match; by simplify_eq.
Qed.

End Reachable.

(** ** Tearing the pool down *)

Section Teardown.
Context {I : Instantiation}.

Lemma owns_slabs_size n w : owns_slabs n w → slab_count w = n.
Proof.
  unfold slab_count. intros [_ Hbl]. revert Hbl.
  generalize (blocks (heap w)) as m. clear w.
  induction n as [|n IH]; intros m Hm.
  - apply map_size_empty_iff, map_eq. intros i.
    rewrite Hm, lookup_empty. destruct (decide (i < 0)%nat); [lia|done].
  - assert (is_Some (m !! n)) as [B HB].
    { rewrite Hm. rewrite decide_True by lia. eauto. }
    rewrite <- (insert_delete_id m n B) by done.
    rewrite map_size_insert_None by apply lookup_delete_eq.
    f_equal. apply IH. intros i.
    destruct (decide (i = n)) as [->|Hne].
    + rewrite lookup_delete_eq. by rewrite decide_False by lia.
    + rewrite lookup_delete_ne by done. rewrite Hm.
      repeat case_decide; try done; lia.
Qed.

(** One iteration of the loop of [~MemoryPool] on a pool owning [S n]
    blocks. *)
Lemma destructor_step n w :
  owns_slabs (S n) w →
  ∃ w1, (do tmp <- Block_next n; delete_Block n;; set_firstBlock tmp) w = Ok tt w1 ∧
        owns_slabs n w1 ∧
        released (heap w1) = n :: released (heap w) ∧
        destroyed (heap w1) = destroyed (heap w) ∧
        cells (heap w1) = cells (heap w) ∧
        firstFreeChunk (pool w1) = firstFreeChunk (pool w) ∧
        usedChunks (pool w1) = usedChunks (pool w).
Proof.
  intros [Hfb Hbl].
  assert (blocks (heap w) !! n = Some (mkBlock (front n) (wrap (chunkSize * growSize)))) as Hn.
  { rewrite Hbl. by rewrite decide_True by lia. }
  unfold bind, Block_next, delete_Block, set_firstBlock, modify_pool.
  rewrite Hn. simpl. rewrite Hn. simpl.
  eexists. split; [done|]. split_and!; try done.
  split; [done|]. simpl. intros i.
  destruct (decide (i = n)) as [->|Hne].
  - rewrite lookup_delete_eq. by rewrite decide_False by lia.
  - rewrite lookup_delete_ne by done. rewrite Hbl.
    repeat case_decide; try done; lia.
Qed.

Lemma destructor_owns n :
  ∀ w, owns_slabs n w →
  ∃ w', MemoryPool.destructor n w = Some (Ok tt w') ∧
        blocks (heap w') = ∅ ∧
        firstBlock (pool w') = None ∧
        released (heap w') = seq 0 n ++ released (heap w) ∧
        destroyed (heap w') = destroyed (heap w) ∧
        cells (heap w') = cells (heap w) ∧
        firstFreeChunk (pool w') = firstFreeChunk (pool w) ∧
        usedChunks (pool w') = usedChunks (pool w).
Proof.
  induction n as [|n IH]; intros w Hown.
  - exists w. destruct Hown as [Hfb Hbl]. simpl in Hfb.
    split; [by destruct w as [[] ?]; simpl in *; subst|].
    split_and!; try done.
    apply map_eq. intros i. rewrite Hbl, lookup_empty.
    destruct (decide (i < 0)%nat); [lia|done].
  - destruct (destructor_step n w Hown)
      as (w1 & Hstep & Hown1 & Hrel & Hdes & Hce & Hffc & Hused).
    destruct (IH w1 Hown1)
      as (w' & Hrun & Hbl' & Hfb' & Hrel' & Hdes' & Hce' & Hffc' & Hused').
    exists w'. split.
    + destruct Hown as [Hfb _]. simpl. rewrite Hfb. simpl.
      by rewrite Hstep.
    + split_and!; try congruence.
      rewrite Hrel', Hrel, seq_S. by rewrite <- app_assoc.
Qed.

(** More fuel than the loop needs changes nothing. *)
Lemma destructor_fuel_mono fuel :
  ∀ fuel' w r, MemoryPool.destructor fuel w = Some r → (fuel ≤ fuel')%nat →
               MemoryPool.destructor fuel' w = Some r.
Proof.
  induction fuel as [|fuel IH]; intros fuel' w r Hr Hle.
  - simpl in Hr. destruct fuel'; simpl; destruct (firstBlock (pool w)); done.
  - destruct fuel' as [|fuel']; [lia|]. simpl in *.
    destruct (firstBlock (pool w)) as [b|]; [|done].
    destruct (bind _ _ w) as [[] w1| |]; [|done..].
    apply IH; [done|lia].
Qed.

End Teardown.

(** ** The cursor *)

Section Cursor.
Context {I : Instantiation} {WF : WellFormed I}.

Lemma chunkSize_pos : 0 < chunkSize.
Proof.
  rewrite chunkSize_max. pose proof sizeof_Chunk_pos. lia.
Qed.

Lemma growSize_lt_modulus : growSize < size_modulus.
Proof.
  pose proof chunkSize_pos. pose proof growSize_pos. pose proof data_fits. nia.
Qed.

Lemma wrap_data : wrap (chunkSize * growSize) = chunkSize * growSize.
Proof.
  apply wrap_small. pose proof chunkSize_pos. pose proof growSize_pos.
  pose proof data_fits. nia.
Qed.

Lemma wrap_slot i : 0 ≤ i < growSize → wrap (chunkSize * i) = chunkSize * i.
Proof.
  intros. apply wrap_small. pose proof chunkSize_pos. pose proof data_fits. nia.
Qed.

Lemma wrap_cursor u : 0 ≤ u < growSize → wrap (u + 1) = u + 1.
Proof. intros. apply wrap_small. pose proof growSize_lt_modulus. lia. Qed.

Lemma reachable_cursor tr w : reachable tr w → cursor_ok w.
Proof.
  induction 1 as [a|tr w c r w' Hr IH Hc|tr w c w' Hr IH Hc].
  - split; simpl; [|done]. pose proof growSize_pos. lia.
  - destruct IH as [Hran Hnone].
    apply perform_Ok in Hc. destruct c as [|p|p val|p].
    + destruct Hc as (p & -> & Hc). rewrite allocate_unfold in Hc.
      cbv zeta in Hc. repeat case_match; simplify_eq; split; simpl; try done.
      * change (wrap (0 + 1)) with 1. pose proof growSize_pos. lia.
      * rewrite wrap_cursor by lia. lia.
    + rewrite deallocate_unfold in Hc. cbv zeta in Hc.
      case_match; by simplify_eq.
    + rewrite construct_unfold in Hc. cbv zeta in Hc.
      case_match; by simplify_eq.
    + rewrite destroy_unfold in Hc. cbv zeta in Hc.
      repeat case_match; by simplify_eq.
  - by apply perform_throw in Hc as ->.
Qed.

(** A slot index below [growSize] in a block the pool owns is storage the
    free store knows. *)
Lemma owned_slot_ok w b i :
  owns_slabs (fresh (heap w)) w → (b < fresh (heap w))%nat →
  0 ≤ i < growSize → slot_ok (heap w) (slot b i) = true.
Proof.
  intros [_ Hbl] Hb Hi. unfold slot_ok, slot. simpl.
  rewrite Hbl, decide_True by done. simpl. rewrite wrap_data.
  pose proof chunkSize_pos.
  rewrite Z.mul_comm, Z_mod_mult.
  apply andb_true_intro; split; [apply andb_true_intro; split|];
    [apply Z.leb_le|apply Z.eqb_eq|apply Z.leb_le]; nia.
Qed.

Lemma carved_slot_ok w p :
  owns_slabs (fresh (heap w)) w → cursor_ok w → carved w p →
  slot_ok (heap w) p = true.
Proof.
  intros Hown [Hran _] (b & i & -> & Hi & Hb & Hlt).
  apply owned_slot_ok; [done..|]. case_decide; lia.
Qed.

End Cursor.

(** ** Live and free slots *)

Section Discipline.
Context {I : Instantiation} {WF : WellFormed I}.

Lemma run_reachable w live : run w live → ∃ tr, reachable tr w.
Proof.
  induction 1 as [a|w live p w' _ [tr IH] Hc|w live w' _ [tr IH] Hc
                 |w live p w' _ [tr IH] _ Hc|w live p val w' _ [tr IH] _ Hc
                 |w live p w' _ [tr IH] _ Hc].
  - exists []. constructor.
  - exists (tr ++ [CAllocate]). eapply reach_ok; [done|].
    unfold perform, bind, ret. by rewrite Hc.
  - exists (tr ++ [CAllocate]). eapply reach_throw; [done|].
    unfold perform, bind, ret. by rewrite Hc.
  - exists (tr ++ [CDeallocate p]). eapply reach_ok; [done|].
    unfold perform, bind, ret. by rewrite Hc.
  - exists (tr ++ [CConstruct p val]). eapply reach_ok; [done|].
    unfold perform, bind, ret. by rewrite Hc.
  - exists (tr ++ [CDestroy p]). eapply reach_ok; [done|].
    unfold perform, bind, ret. by rewrite Hc.
Qed.

Lemma run_slabs w live :
  run w live → owns_slabs (fresh (heap w)) w ∧ cursor_ok w.
Proof.
  intros [tr Hr]%run_reachable. split.
  - by destruct (reachable_slabs tr w Hr).
  - by eapply reachable_cursor.
Qed.

Lemma remove_one_perm p l : p ∈ l → l ≡ₚ p :: remove_one p l.
Proof.
  induction l as [|q l IH]; intros Hin; [by apply not_elem_of_nil in Hin|].
  simpl. destruct (decide (q = p)) as [->|Hne]; [done|].
  apply elem_of_cons in Hin as [->|Hin]; [done|].
  rewrite (IH Hin) at 1. apply perm_swap.
Qed.

(** Writing a slot outside the free list leaves the free list as it is. *)
Lemma free_list_frame ce head fl p c :
  free_list ce head fl → p ∉ fl → free_list (<[p := c]> ce) head fl.
Proof.
  revert head. induction fl as [|q fl IH]; intros head Hfl Hp; [done|].
  destruct Hfl as (-> & nx & Hq & Hfl).
  apply not_elem_of_cons in Hp as [Hne Hp].
  split; [done|]. exists nx. split; [|by apply IH].
  by rewrite lookup_insert_ne.
Qed.

Lemma free_list_empty ce fl : free_list ce None fl → fl = [].
Proof. destruct fl; [done|]. by intros [? _]. Qed.

Lemma carved_frame w w' p :
  firstBlock (pool w') = firstBlock (pool w) →
  usedChunks (pool w') = usedChunks (pool w) →
  fresh (heap w') = fresh (heap w) →
  carved w p → carved w' p.
Proof.
  intros E1 E2 E3 (b & i & -> & Hi & Hb & Hlt).
  exists b, i. rewrite E1, E2, E3. done.
Qed.

Lemma slot_inj b i b' i' : slot b i = slot b' i' → b = b' ∧ i = i'.
Proof.
  unfold slot. intros [= -> E]. split; [done|].
  pose proof chunkSize_pos. nia.
Qed.

(** The three ways [allocate] returns, each keeping live and free slots
    apart. *)
Lemma allocate_disjoint w live p w' :
  owns_slabs (fresh (heap w)) w → cursor_ok w → disjoint_inv w live →
  MemoryPool.allocate w = Ok p w' → disjoint_inv w' (p :: live).
Proof.
  intros [Hfb Hbl] [Hran Hnone] (fl & Hfl & Hnd & Hcv) Hc.
  rewrite allocate_unfold in Hc. cbv zeta in Hc.
  destruct (firstFreeChunk (pool w)) as [q|] eqn:Hffc.
  - (* pop *)
    destruct (slot_ok (heap w) q); [|done].
    destruct (cells (heap w) !! q) as [[nx| |]|] eqn:Hq; simplify_eq.
    destruct fl as [|q' fl]; [done|].
    destruct Hfl as ([= <-] & nx' & Hq' & Hfl). simplify_eq.
    exists fl. simpl. split; [done|].
    rewrite <- Permutation_middle in Hnd, Hcv. split; [done|].
    eapply Forall_impl; [exact Hcv|]. intros x. by apply carved_frame.
  - apply free_list_empty in Hfl as ->. rewrite app_nil_r in *.
    destruct (usedChunks (pool w) >=? growSize) eqn:Hge.
    + (* a new block *)
      destruct (avail (heap w)) as [|k]; simplify_eq.
      exists []. simpl. split; [done|]. rewrite app_nil_r.
      rewrite Z.mul_0_r, wrap_0.
      replace (Ptr (fresh (heap w)) 0) with (slot (fresh (heap w)) 0)
        by (unfold slot; by rewrite Z.mul_0_r).
      split.
      * apply NoDup_cons. split; [|done]. intros Hin.
        rewrite Forall_forall in Hcv.
        destruct (Hcv _ Hin) as (b & i & E & _ & Hb & _).
        apply slot_inj in E as [<- _]. lia.
      * apply Forall_cons. split.
        -- exists (fresh (heap w)), 0. simpl.
           rewrite decide_True by done.
           change (wrap (0 + 1)) with 1. split_and!; [done|lia|lia|lia].
        -- eapply Forall_impl; [exact Hcv|].
           intros x (b & i & -> & Hi & Hb & Hlt). exists b, i. simpl.
           rewrite decide_False by (intros [= E]; lia).
           split_and!; [done|done|lia|]. case_decide; lia.
    + (* the next slot of the front block *)
      rewrite Z.geb_leb in Hge. apply Z.leb_gt in Hge.
      destruct (firstBlock (pool w)) as [b|] eqn:Hb; [|done].
      destruct (blocks (heap w) !! b) eqn:HB; simplify_eq.
      symmetry in Hfb. apply front_lt in Hfb.
      rewrite wrap_slot, wrap_cursor by lia.
      change (Ptr b (chunkSize * usedChunks (pool w)))
        with (slot b (usedChunks (pool w))).
      exists []. simpl. split; [done|]. rewrite app_nil_r. split.
      * apply NoDup_cons. split; [|done]. intros Hin.
        rewrite Forall_forall in Hcv.
        destruct (Hcv _ Hin) as (b' & i & E & _ & _ & Hlt).
        apply slot_inj in E as [<- <-].
        rewrite decide_True in Hlt by done. lia.
      * apply Forall_cons. split.
        -- exists b, (usedChunks (pool w)). simpl.
           rewrite decide_True by done. split_and!; [done|lia|done|lia].
        -- eapply Forall_impl; [exact Hcv|].
           intros x (b' & i & -> & Hi & Hb' & Hlt). exists b', i. simpl.
           split_and!; [done..|]. rewrite Hb in Hlt. case_decide; lia.
Qed.

(** Overwriting a live slot (a free-list link at [deallocate], an element
    at [construct], nothing at [destroy]) keeps the free list intact. *)
Lemma write_live_disjoint w live p c h' :
  disjoint_inv w live → p ∈ live →
  cells h' = <[p := c]> (cells (heap w)) → fresh h' = fresh (heap w) →
  disjoint_inv (mkWorld (pool w) h') live.
Proof.
  intros (fl & Hfl & Hnd & Hcv) Hin Hce Hfr.
  exists fl. simpl. rewrite Hce. split_and!; [|done|].
  - apply free_list_frame; [done|].
    apply NoDup_app in Hnd as (_ & Hdisj & _). by apply Hdisj.
  - eapply Forall_impl; [exact Hcv|]. intros x. by apply carved_frame.
Qed.

Lemma deallocate_disjoint w live p w' :
  disjoint_inv w live → p ∈ live →
  MemoryPool.deallocate p w = Ok tt w' →
  disjoint_inv w' (remove_one p live).
Proof.
  intros (fl & Hfl & Hnd & Hcv) Hin Hc.
  rewrite deallocate_unfold in Hc. cbv zeta in Hc.
  destruct (slot_ok (heap w) p); simplify_eq.
  exists (p :: fl). simpl.
  rewrite (remove_one_perm p live Hin) in Hnd, Hcv. simpl in Hnd, Hcv.
  rewrite <- Permutation_middle. split_and!; [| |done|].
  - done.
  - exists (firstFreeChunk (pool w)). rewrite lookup_insert_eq. split; [done|].
    apply free_list_frame; [done|].
    apply NoDup_cons in Hnd as [Hnotin _]. intros Hp. apply Hnotin.
    apply elem_of_app. by right.
  - eapply Forall_impl; [exact Hcv|]. intros x. by apply carved_frame.
Qed.

(** Invariant of a well-behaved client's runs. *)
Lemma run_disjoint w live : run w live → disjoint_inv w live.
Proof.
  induction 1 as [a|w live p w' Hr IH Hc|w live w' Hr IH Hc
                 |w live p w' Hr IH Hin Hc|w live p val w' Hr IH Hin Hc
                 |w live p w' Hr IH Hin Hc].
  - exists []. split_and!; [done|constructor|constructor].
  - destruct (run_slabs w live Hr). by eapply allocate_disjoint.
  - by apply allocate_throw in Hc as ->.
  - by eapply deallocate_disjoint.
  - rewrite construct_unfold in Hc. cbv zeta in Hc.
    destruct (slot_ok (heap w) p); simplify_eq.
    by eapply write_live_disjoint.
  - rewrite destroy_unfold in Hc. cbv zeta in Hc.
    repeat case_match; simplify_eq.
    by eapply write_live_disjoint.
Qed.

Lemma live_slot_ok w live p :
  run w live → p ∈ live → slot_ok (heap w) p = true.
Proof.
  intros Hr Hin. destruct (run_slabs w live Hr) as [Hown Hcur].
  destruct (run_disjoint w live Hr) as (fl & _ & _ & Hcv).
  apply carved_slot_ok; [done..|].
  rewrite Forall_forall in Hcv. apply Hcv, elem_of_app. by left.
Qed.

End Discipline.

(** ** The pool engine *)

Lemma small_wf : WellFormed small.
Proof. split; reflexivity. Qed.

Section Engine.
Context {I : Instantiation} {WF : WellFormed I}.

(** C1.  In a state a well-behaved client can reach, [allocate] does one of
    three things.  With a non-empty free list it returns the head [p] and
    makes the link stored in [p] the new head; blocks and cursor stay.
    With an empty free list, if there is no block or the cursor equals
    [growSize], it creates a block whose [next] is the old front, makes it
    the front, and returns its slot 0 with the cursor at 1 (or throws, the
    state untouched, when the free store has no block to give).  Otherwise
    it returns the slot at the cursor in the front block and moves the
    cursor up by one. *)
Theorem allocate_algorithm (w : World) (live : list ptr) :
  run w live →
  let s := pool w in
  let h := heap w in
  match firstFreeChunk s with
  | Some p =>
      ∃ nx, cells h !! p = Some (Link nx) ∧
            MemoryPool.allocate w =
            Ok p (mkWorld (mkPool nx (firstBlock s) (usedChunks s)) h)
  | None =>
      if decide (firstBlock s = None ∨ usedChunks s = growSize) then
        match avail h with
        | S k =>
            MemoryPool.allocate w =
            Ok (slot (fresh h) 0)
               (mkWorld (mkPool None (Some (fresh h)) 1)
                  (mkHeap (<[fresh h := mkBlock (firstBlock s) (chunkSize * growSize)]> (blocks h))
                     (cells h) (S (fresh h)) k (released h) (destroyed h)))
        | O => MemoryPool.allocate w = BadAlloc w
        end
      else
        ∃ b, firstBlock s = Some b ∧
             MemoryPool.allocate w =
             Ok (slot b (usedChunks s))
                (mkWorld (mkPool None (Some b) (usedChunks s + 1)) h)
  end.
Proof.
  intros Hr. cbv zeta.
  destruct (run_slabs w live Hr) as [Hown [Hran Hnone]].
  destruct (run_disjoint w live Hr) as (fl & Hfl & Hnd & Hcv).
  rewrite allocate_unfold. cbv zeta.
  destruct (firstFreeChunk (pool w)) as [p|] eqn:Hffc.
  - destruct fl as [|q fl]; [done|].
    destruct Hfl as ([= <-] & nx & Hq & _).
    exists nx. split; [done|].
    rewrite carved_slot_ok, Hq; [done..|].
    rewrite Forall_forall in Hcv. apply Hcv, elem_of_app. right. by left.
  - destruct (decide _) as [Hgrow|Hbump].
    + assert (usedChunks (pool w) = growSize) as Hu by (destruct Hgrow; auto).
      rewrite Hu. rewrite (proj2 (Z.geb_le _ _)) by lia.
      destruct (avail (heap w)); [done|].
      change (wrap (0 + 1)) with 1.
      rewrite wrap_data, Z.mul_0_r, wrap_0. unfold slot. by rewrite Z.mul_0_r.
    + destruct (firstBlock (pool w)) as [b|] eqn:Hb; [|by destruct Hbump; left].
      exists b. split; [done|].
      assert (usedChunks (pool w) < growSize) as Hu.
      { destruct (decide (usedChunks (pool w) = growSize)); [|lia].
        destruct Hbump. by right. }
      rewrite Z.geb_leb, (proj2 (Z.leb_gt _ _)) by lia.
      destruct Hown as [Hfb Hbl]. rewrite Hbl.
      rewrite decide_True by (apply front_lt; congruence).
      by rewrite wrap_slot, wrap_cursor by lia.
Qed.

(** C2.  Whatever a client does that only gives back slots it holds, the
    addresses it holds (returned by [allocate], not yet deallocated) are
    pairwise distinct. *)
Theorem live_addresses_distinct (w : World) (live : list ptr) :
  run w live → NoDup live.
Proof.
  intros (fl & _ & Hnd & _)%run_disjoint.
  by apply NoDup_app in Hnd as [? _].
Qed.

(** C7.  [deallocate] of a slot the client holds returns normally and only
    pushes the slot: [p] becomes the free-list head and its storage holds
    the link to the former head, so the free list is the old one with [p]
    in front; the front block, the cursor, the set of live blocks and their
    number stay, nothing is deleted, no other slot is written. *)
Theorem deallocate_pushes (w : World) (live : list ptr) (p : ptr) :
  run w live → p ∈ live →
  ∃ w',
    MemoryPool.deallocate p w = Ok tt w' ∧
    firstFreeChunk (pool w') = Some p ∧
    cells (heap w') !! p = Some (Link (firstFreeChunk (pool w))) ∧
    (∃ fl, free_list (cells (heap w)) (firstFreeChunk (pool w)) fl ∧
           free_list (cells (heap w')) (firstFreeChunk (pool w')) (p :: fl)) ∧
    firstBlock (pool w') = firstBlock (pool w) ∧
    usedChunks (pool w') = usedChunks (pool w) ∧
    blocks (heap w') = blocks (heap w) ∧
    slab_count w' = slab_count w ∧
    released (heap w') = released (heap w) ∧
    released (heap w') = [] ∧
    (∀ q, q ≠ p → cells (heap w') !! q = cells (heap w) !! q) ∧
    fresh (heap w') = fresh (heap w) ∧
    avail (heap w') = avail (heap w) ∧
    destroyed (heap w') = destroyed (heap w).
Proof.
  intros Hr Hin.
  destruct (run_disjoint w live Hr) as (fl & Hfl & Hnd & _).
  destruct (run_reachable w live Hr) as [tr Hreach].
  destruct (reachable_slabs tr w Hreach) as (_ & Hrel & _).
  rewrite deallocate_unfold. cbv zeta.
  rewrite (live_slot_ok w live p Hr Hin).
  eexists. split; [done|]. simpl. split_and!; try done.
  - apply lookup_insert_eq.
  - exists fl. split; [done|]. split; [done|].
    exists (firstFreeChunk (pool w)). rewrite lookup_insert_eq. split; [done|].
    apply free_list_frame; [done|].
    apply NoDup_app in Hnd as (_ & Hdisj & _). by apply Hdisj.
  - intros q Hq. by rewrite lookup_insert_ne.
Qed.

End Engine.

(** ** The adapter and the element lifetime *)

Section Adapter.
Context {I : Instantiation}.

(** C3.  [Allocator::allocate(n, hint)] is the pool's [allocate] when
    [n == 1] and [hint] is null; in every other case it throws
    [std::bad_alloc] at once, the pool and the free store exactly as they
    were. *)
Theorem adapter_allocate_guard (n : Z) (hint : option ptr) (w : World) :
  Allocator.allocate n hint w =
  if decide (n = 1 ∧ hint = None) then MemoryPool.allocate w else BadAlloc w.
Proof.
  unfold Allocator.allocate, throw_bad_alloc.
  destruct (decide (n = 1 ∧ hint = None)) as [[-> ->]|Hn]; [done|].
  destruct (Z.eqb_spec n 1) as [->|Hne]; [|done].
  destruct hint; [done|]. by destruct Hn.
Qed.

(** C4.  On a pool whose free list is empty, [deallocate(p)] of a slot [p]
    returns and leaves a free list made of [p] alone; the [allocate] that
    follows returns [p], and the free list is empty again, with the front
    block, the cursor and the blocks as before the two calls. *)
Theorem lifo_reuse (p : ptr) (w : World) :
  slot_ok (heap w) p = true →
  firstFreeChunk (pool w) = None →
  ∃ w1 w2,
    MemoryPool.deallocate p w = Ok tt w1 ∧
    free_list (cells (heap w1)) (firstFreeChunk (pool w1)) [p] ∧
    MemoryPool.allocate w1 = Ok p w2 ∧
    free_list (cells (heap w2)) (firstFreeChunk (pool w2)) [] ∧
    firstBlock (pool w2) = firstBlock (pool w) ∧
    usedChunks (pool w2) = usedChunks (pool w) ∧
    blocks (heap w2) = blocks (heap w).
Proof.
  intros Hok Hffc.
  rewrite deallocate_unfold. cbv zeta. rewrite Hok, Hffc.
  eexists _, _. split; [done|]. split.
  { split; [done|]. exists None. split; [apply lookup_insert_eq|done]. }
  rewrite allocate_unfold. cbv zeta. simpl.
  unfold slot_ok in *. simpl. destruct (blocks (heap w) !! blk p); [|done].
  rewrite Hok, lookup_insert_eq. split; [done|]. done.
Qed.

(** C10.  [construct(p, value)] and [destroy(p)] never touch the pool
    object: free-list head, front block and cursor are the same after the
    call, and so are the live blocks.  [construct] only stores a copy of
    [value] at [p]; [destroy] only runs [~T()] at [p], once, and the slot
    stays where it was (not on the free list, its block alive).  Neither
    throws; each is undefined only where [p] is no slot of a live block
    or, for [destroy], holds no element. *)
Theorem construct_destroy_frame (p : ptr) (val : T) (w : World) :
  match Allocator.construct p val w with
  | Ok _ w' =>
      pool w' = pool w ∧
      blocks (heap w') = blocks (heap w) ∧
      cells (heap w') = <[p := Payload val]> (cells (heap w)) ∧
      released (heap w') = released (heap w) ∧
      destroyed (heap w') = destroyed (heap w) ∧
      fresh (heap w') = fresh (heap w) ∧
      avail (heap w') = avail (heap w) ∧
      slot_ok (heap w) p = true
  | BadAlloc _ => False
  | Undefined => slot_ok (heap w) p = false
  end ∧
  match Allocator.destroy p w with
  | Ok _ w' =>
      pool w' = pool w ∧
      blocks (heap w') = blocks (heap w) ∧
      cells (heap w') = <[p := Indeterminate]> (cells (heap w)) ∧
      released (heap w') = released (heap w) ∧
      destroyed (heap w') = p :: destroyed (heap w) ∧
      fresh (heap w') = fresh (heap w) ∧
      avail (heap w') = avail (heap w) ∧
      slot_ok (heap w') p = true ∧
      ∃ v, cells (heap w) !! p = Some (Payload v)
  | BadAlloc _ => False
  | Undefined =>
      slot_ok (heap w) p = false ∨ ∀ v, cells (heap w) !! p ≠ Some (Payload v)
  end.
Proof.
  rewrite construct_unfold, destroy_unfold. cbv zeta. split.
  - destruct (slot_ok (heap w) p); simpl; [|done]. by split_and!.
  - destruct (slot_ok (heap w) p) eqn:Hok; simpl; [|by left].
    destruct (cells (heap w) !! p) as [[nx|v|]|] eqn:Hp;
      try (right; by intros v').
    simpl. split_and!; try done. by exists v.
Qed.

(** C8.  From any reachable state, [~MemoryPool] ends after as many loop
    iterations as the pool has blocks; it deletes each of them exactly
    once, leaves none alive, and runs no [~T()]: the destructor log stays
    what the [destroy] calls of the client made it. *)
Theorem teardown_releases_all (tr : list call) (w : World) :
  reachable tr w →
  ∃ w',
    (∀ fuel, (slab_count w ≤ fuel)%nat →
             MemoryPool.destructor fuel w = Some (Ok tt w')) ∧
    blocks (heap w') = ∅ ∧
    firstBlock (pool w') = None ∧
    NoDup (released (heap w')) ∧
    (∀ b, b ∈ released (heap w') ↔ is_Some (blocks (heap w) !! b)) ∧
    length (released (heap w')) = slab_count w ∧
    destroyed (heap w') = destroyed (heap w) ∧
    destroyed (heap w) = rev (destroy_calls tr).
Proof.
  intros Hr. destruct (reachable_slabs tr w Hr) as (Hown & Hrel & Hdes).
  destruct (destructor_owns _ w Hown)
    as (w' & Hrun & Hbl & Hfb & Hrel' & Hdes' & _).
  rewrite Hrel, app_nil_r in Hrel'.
  rewrite (owns_slabs_size _ w Hown).
  exists w'. split_and!; try done.
  - intros fuel Hle. by eapply destructor_fuel_mono.
  - rewrite Hrel'. apply NoDup_seq.
  - intros b. rewrite Hrel', elem_of_seq. destruct Hown as [_ Hb].
    rewrite Hb. case_decide.
    + split; [eauto|lia].
    + split; [lia|]. by intros [? ?].
  - by rewrite Hrel', length_seq.
Qed.

End Adapter.

(** ** Growth, slot size and cursor *)

Section Growth.
Context {I : Instantiation} {WF : WellFormed I}.

Lemma allocate_after (a c : nat) (w : World) :
  (2 ≤ a)%nat → Z.of_nat c ≤ growSize → after_allocations a c w →
  ∃ p w', MemoryPool.allocate w = Ok p w' ∧ after_allocations a (S c) w'.
Proof.
  intros Ha Hc (Hffc & Hown & Hav & Hfr & Hu).
  pose proof growSize_pos as Hg.
  rewrite allocate_unfold. cbv zeta. rewrite Hffc.
  assert (usedChunks (pool w) = growSize ∨ usedChunks (pool w) < growSize)
    as [Hfull|Hroom] by (repeat case_decide; lia).
  - (* a new block: first call, or call [growSize + 1] *)
    rewrite Hfull, (proj2 (Z.geb_le _ _)) by lia.
    assert (avail (heap w) ≠ 0%nat) as Hk by (repeat case_decide; lia).
    destruct (avail (heap w)) as [|k]; [done|].
    eexists _, _. split; [done|].
    split; [done|]. split; [by apply owns_slabs_grow|].
    cbn [fresh heap pool usedChunks avail]. change (wrap (0 + 1)) with 1.
    split_and!; repeat case_decide; lia.
  - (* the cursor moves *)
    rewrite Z.geb_leb, (proj2 (Z.leb_gt _ _)) by lia.
    assert (fresh (heap w) = 1%nat) as Hfr1 by (repeat case_decide; lia).
    assert (0 ≤ usedChunks (pool w)) as Hu0 by (repeat case_decide; lia).
    destruct Hown as [Hfb Hbl]. rewrite Hfb, Hfr1.
    cbn [front]. rewrite Hbl, Hfr1. rewrite decide_True by lia.
    eexists _, _. split; [done|].
    split; [done|]. split; [split; [|done]; cbn [fresh heap pool firstBlock]; by rewrite Hfr1|].
    cbn [fresh heap pool usedChunks avail]. rewrite wrap_cursor by lia.
    split_and!; repeat case_decide; lia.
Qed.

Lemma allocate_n_after (a n : nat) :
  (2 ≤ a)%nat →
  ∀ c w, Z.of_nat (c + n) ≤ growSize + 1 → after_allocations a c w →
  ∃ ps w', allocate_n n w = Ok ps w' ∧ length ps = n ∧
           after_allocations a (c + n) w'.
Proof.
  intros Ha. induction n as [|n IH]; intros c w Hc Hafter.
  - exists [], w. rewrite Nat.add_0_r. by split_and!.
  - destruct (allocate_after a c w) as (p & w1 & Hp & H1); [done|lia|done|].
    destruct (IH (S c) w1) as (ps & w' & Hps & Hlen & H'); [lia|done|].
    exists (p :: ps), w'. split_and!.
    + simpl. unfold bind, ret. by rewrite Hp, Hps.
    + simpl. by rewrite Hlen.
    + by replace (c + S n)%nat with (S c + n)%nat by lia.
Qed.

(** C5.  [k] calls of [allocate] on a fresh pool, [k ≤ growSize + 1], with
    room for two blocks on the free store, all return; the pool then has
    no block for [k = 0], one block for [1 ≤ k ≤ growSize], two for
    [k = growSize + 1].  So the first call creates the first block, calls
    2 to [growSize] create none, call [growSize + 1] creates the second. *)
Theorem growth_creates_two_slabs (a k : nat) :
  (2 ≤ a)%nat → Z.of_nat k ≤ growSize + 1 →
  ∃ ps w',
    allocate_n k (initial a) = Ok ps w' ∧ length ps = k ∧
    slab_count w' =
      (if decide (k = 0%nat) then 0%nat
       else if decide (Z.of_nat k ≤ growSize) then 1%nat else 2%nat).
Proof.
  intros Ha Hk.
  destruct (allocate_n_after a k Ha 0%nat (initial a)) as (ps & w' & Hps & Hlen & H').
  - by rewrite Nat.add_0_l.
  - split; [done|]. split.
    + by destruct (reachable_slabs [] (initial a) (reach_init a)).
    + split_and!; [done| |]; by rewrite decide_True.
  - exists ps, w'. split_and!; [done..|].
    destruct H' as (_ & Hown & _ & Hfr & _). rewrite Nat.add_0_l in Hfr.
    by rewrite (owns_slabs_size _ w' Hown).
Qed.

Lemma slot_ok_slot (h : Heap) (p : ptr) :
  slot_ok h p = true →
  ∃ B i, blocks h !! blk p = Some B ∧ p = slot (blk p) i ∧
         0 ≤ i ∧ chunkSize * (i + 1) ≤ data_size B.
Proof.
  unfold slot_ok. destruct (blocks h !! blk p) as [B|]; [|done].
  intros [[H0 Hm]%andb_prop Hle]%andb_prop.
  apply Z.leb_le in H0, Hle. apply Z.eqb_eq in Hm.
  pose proof chunkSize_pos as Hcs.
  exists B, (off p / chunkSize).
  assert (off p = chunkSize * (off p / chunkSize)) as E
    by (apply Z.div_exact; lia).
  split_and!; [done| |by apply Z.div_pos|lia].
  destruct p as [b o]. unfold slot. simpl in *. by rewrite <- E.
Qed.

(** C6.  The slot size is the larger of [sizeof(T)] and the size of a
    link: [sizeof(T)] when that is at least the link size, the link size
    otherwise.  Every block of a reachable state has [growSize] slots of
    that size, and every address [allocate] returns is the start of one of
    them. *)
Theorem slot_size (tr : list call) (w : World) :
  reachable tr w →
  chunkSize = Z.max sizeof_T sizeof_Chunk ∧
  (sizeof_Chunk ≤ sizeof_T → chunkSize = sizeof_T) ∧
  (sizeof_T < sizeof_Chunk → chunkSize = sizeof_Chunk) ∧
  (∀ b B, blocks (heap w) !! b = Some B → data_size B = chunkSize * growSize) ∧
  (∀ p w', MemoryPool.allocate w = Ok p w' →
           ∃ b i, p = slot b i ∧ 0 ≤ i < growSize ∧
                  is_Some (blocks (heap w') !! b)).
Proof.
  intros Hr. rewrite chunkSize_max.
  split; [done|]. split; [lia|]. split; [lia|]. rewrite <- chunkSize_max.
  destruct (reachable_slabs tr w Hr) as ([Hfb Hbl] & _).
  assert (∀ w' b B, owns_slabs (fresh (heap w')) w' →
                    blocks (heap w') !! b = Some B →
                    data_size B = chunkSize * growSize) as Hsize.
  { intros w' b B [_ Hbl'] HB. rewrite Hbl' in HB.
    case_decide; simplify_eq. simpl. apply wrap_data. }
  split; [intros b B; by apply Hsize|].
  intros p w' Hp.
  assert (reachable (tr ++ [CAllocate]) w') as Hr'.
  { eapply reach_ok; [done|]. unfold perform, bind, ret. by rewrite Hp. }
  destruct (reachable_slabs _ w' Hr') as (Hown' & _).
  assert (slot_ok (heap w') p = true) as Hok.
  { rewrite allocate_unfold in Hp. cbv zeta in Hp.
    pose proof growSize_pos.
    destruct (reachable_cursor tr w Hr) as [Hran _].
    repeat case_match; simplify_eq.
    - done.
    - rewrite Z.mul_0_r, wrap_0.
      replace (Ptr (fresh (heap w)) 0) with (slot (fresh (heap w)) 0)
        by (unfold slot; by rewrite Z.mul_0_r).
      apply owned_slot_ok; [done|simpl; lia|lia].
    - rewrite wrap_slot by lia.
      apply (owned_slot_ok _ _ (usedChunks (pool w))); [done| |lia].
      simpl. apply front_lt. congruence. }
  destruct (slot_ok_slot _ p Hok) as (B & i & HB & E & Hi & Hle).
  exists (blk p), i. split; [done|]. split; [|by eexists].
  rewrite (Hsize w' _ _ Hown' HB) in Hle.
  pose proof chunkSize_pos. nia.
Qed.

(** C9.  In every reachable state the cursor is between 0 and [growSize],
    and it equals [growSize] when the pool has no block.  So when the free
    list is empty, [allocate] is never undefined: it throws only for want
    of storage, and when it returns, the address is slot [i] of the front
    block, which is alive, with [0 ≤ i ≤ growSize - 1]. *)
Theorem cursor_in_range (tr : list call) (w : World) :
  reachable tr w →
  0 ≤ usedChunks (pool w) ≤ growSize ∧
  (firstBlock (pool w) = None → usedChunks (pool w) = growSize) ∧
  (firstFreeChunk (pool w) = None →
   match MemoryPool.allocate w with
   | Ok p w' =>
       ∃ b i, firstBlock (pool w') = Some b ∧
              is_Some (blocks (heap w') !! b) ∧
              p = slot b i ∧ 0 ≤ i ≤ growSize - 1 ∧
              usedChunks (pool w') = i + 1
   | BadAlloc w' => w' = w ∧ avail (heap w) = 0%nat
   | Undefined => False
   end).
Proof.
  intros Hr. destruct (reachable_cursor tr w Hr) as [Hran Hnone].
  split; [done|]. split; [done|]. intros Hffc.
  destruct (reachable_slabs tr w Hr) as ([Hfb Hbl] & _).
  pose proof growSize_pos.
  rewrite allocate_unfold. cbv zeta. rewrite Hffc.
  destruct (usedChunks (pool w) >=? growSize) eqn:Hge.
  - destruct (avail (heap w)) as [|k]; [done|].
    exists (fresh (heap w)), 0. simpl.
    rewrite lookup_insert_eq, Z.mul_0_r, wrap_0.
    change (wrap (0 + 1)) with 1. unfold slot. rewrite Z.mul_0_r.
    split_and!; [done|by eexists|done|lia|lia|done].
  - rewrite Z.geb_leb in Hge. apply Z.leb_gt in Hge.
    destruct (firstBlock (pool w)) as [b|] eqn:Hb; [|specialize (Hnone eq_refl); lia].
    rewrite Hbl, decide_True by (apply front_lt; congruence).
    exists b, (usedChunks (pool w)). simpl.
    rewrite wrap_slot, wrap_cursor by lia.
    split_and!; [done| |done|lia|lia|done].
    rewrite Hbl, decide_True by (apply front_lt; congruence). by eexists.
Qed.

End Growth.

(** ** The small instantiation at work *)

(** Why [WellFormed] asks for [growSize > 0]: with no slot per block every
    [allocate] creates a block and leaves the cursor at 1, above [growSize]. *)
Remark degenerate_cursor :
  ∃ p w', MemoryPool.allocate (initial (I := degenerate) 1) = Ok p w' ∧
          usedChunks (pool w') = 1 ∧ growSize (Instantiation := degenerate) = 0.
Proof. eexists _, _. split; [vm_compute; reflexivity|]. split; reflexivity. Qed.

Lemma small_run1 : run small_w1 [Ptr 0 0].
Proof.
  apply (run_allocate (initial 3) [] (Ptr 0 0) small_w1 (run_init 3)).
  vm_compute. reflexivity.
Qed.

Lemma small_run2 : run small_w2 [Ptr 0 8; Ptr 0 0].
Proof.
  apply (run_allocate small_w1 [Ptr 0 0] (Ptr 0 8) small_w2 small_run1).
  vm_compute. reflexivity.
Qed.

Lemma small_run3 : run small_w3 [Ptr 0 8].
Proof.
  apply (run_deallocate small_w2 [Ptr 0 8; Ptr 0 0] (Ptr 0 0) small_w3 small_run2).
  - apply list_elem_of_further, list_elem_of_here.
  - vm_compute. reflexivity.
Qed.

Lemma small_run4 : run small_w4 [Ptr 0 0; Ptr 0 8].
Proof.
  apply (run_allocate small_w3 [Ptr 0 8] (Ptr 0 0) small_w4 small_run3).
  vm_compute. reflexivity.
Qed.

Lemma small_reach2 : reachable [CAllocate; CAllocate] small_w2.
Proof.
  apply (reach_ok [CAllocate] small_w1 CAllocate (Some (Ptr 0 8)));
    [|vm_compute; reflexivity].
  apply (reach_ok [] (initial 3) CAllocate (Some (Ptr 0 0)));
    [|vm_compute; reflexivity].
  apply reach_init.
Qed.

Lemma small_reach5 : reachable small_trace small_w5.
Proof.
  apply (reach_ok [@CAllocate small; @CConstruct small (Ptr 0 0) 7; CDestroy (Ptr 0 0); CAllocate]
           (mkWorld (mkPool None (Some 0%nat) 2)
              (mkHeap {[0%nat := small_block0]}
                 (<[Ptr 0 0 := Indeterminate]> {[Ptr 0 0 := @Payload small 7]}) 1 2 []
                 [Ptr 0 0]))
           CAllocate (Some (Ptr 1 0))); [|vm_compute; reflexivity].
  apply (reach_ok [@CAllocate small; @CConstruct small (Ptr 0 0) 7; CDestroy (Ptr 0 0)]
           (mkWorld (mkPool None (Some 0%nat) 1)
              (mkHeap {[0%nat := small_block0]}
                 (<[Ptr 0 0 := Indeterminate]> {[Ptr 0 0 := @Payload small 7]}) 1 2 []
                 [Ptr 0 0]))
           CAllocate (Some (Ptr 0 8))); [|vm_compute; reflexivity].
  apply (reach_ok [@CAllocate small; @CConstruct small (Ptr 0 0) 7]
           (mkWorld (mkPool None (Some 0%nat) 1)
              (mkHeap {[0%nat := small_block0]} {[Ptr 0 0 := @Payload small 7]} 1 2 [] []))
           (CDestroy (Ptr 0 0)) None); [|vm_compute; reflexivity].
  apply (reach_ok [CAllocate] small_w1 (@CConstruct small (Ptr 0 0) 7) None);
    [|vm_compute; reflexivity].
  apply (reach_ok [] (initial 3) CAllocate (Some (Ptr 0 0)));
    [|vm_compute; reflexivity].
  apply reach_init.
Qed.

Lemma allocate_algorithm_witness :
  (∃ nx, cells (heap small_w3) !! Ptr 0 0 = Some (Link nx) ∧
         MemoryPool.allocate small_w3 =
         Ok (Ptr 0 0) (mkWorld (mkPool nx (Some 0%nat) 2) (heap small_w3))) ∧
  MemoryPool.allocate small_w2 =
  Ok (slot (I := small) 1 0)
     (mkWorld (mkPool None (Some 1%nat) 1)
        (mkHeap (<[1%nat := small_block1]> {[0%nat := small_block0]}) ∅ 2 1 [] [])) ∧
  (∃ b, Some 0%nat = Some b ∧
        MemoryPool.allocate small_w1 =
        Ok (slot (I := small) b 1) (mkWorld (mkPool None (Some b) (1 + 1)) (heap small_w1))).
Proof.
  split; [|split].
  - exact (@allocate_algorithm small small_wf small_w3 [Ptr 0 8] small_run3).
  - exact (@allocate_algorithm small small_wf small_w2 [Ptr 0 8; Ptr 0 0] small_run2).
  - exact (@allocate_algorithm small small_wf small_w1 [Ptr 0 0] small_run1).
Defined.

Lemma live_addresses_distinct_witness : NoDup [Ptr 0 0; Ptr 0 8].
Proof.
  exact (@live_addresses_distinct small small_wf small_w4 [Ptr 0 0; Ptr 0 8] small_run4).
Defined.

Lemma deallocate_pushes_witness :
  ∃ w',
    MemoryPool.deallocate (Ptr 0 0) small_w2 = Ok tt w' ∧
    firstFreeChunk (pool w') = Some (Ptr 0 0) ∧
    cells (heap w') !! Ptr 0 0 = Some (Link (firstFreeChunk (pool small_w2))) ∧
    (∃ fl, free_list (cells (heap small_w2)) (firstFreeChunk (pool small_w2)) fl ∧
           free_list (cells (heap w')) (firstFreeChunk (pool w')) (Ptr 0 0 :: fl)) ∧
    firstBlock (pool w') = firstBlock (pool small_w2) ∧
    usedChunks (pool w') = usedChunks (pool small_w2) ∧
    blocks (heap w') = blocks (heap small_w2) ∧
    slab_count w' = slab_count small_w2 ∧
    released (heap w') = released (heap small_w2) ∧
    released (heap w') = [] ∧
    (∀ q, q ≠ Ptr 0 0 → cells (heap w') !! q = cells (heap small_w2) !! q) ∧
    fresh (heap w') = fresh (heap small_w2) ∧
    avail (heap w') = avail (heap small_w2) ∧
    destroyed (heap w') = destroyed (heap small_w2).
Proof.
  apply (@deallocate_pushes small small_wf small_w2 [Ptr 0 8; Ptr 0 0] (Ptr 0 0) small_run2).
  apply list_elem_of_further, list_elem_of_here.
Defined.

Lemma lifo_reuse_witness :
  ∃ w1 w2,
    MemoryPool.deallocate (Ptr 0 0) small_w2 = Ok tt w1 ∧
    free_list (cells (heap w1)) (firstFreeChunk (pool w1)) [Ptr 0 0] ∧
    MemoryPool.allocate w1 = Ok (Ptr 0 0) w2 ∧
    free_list (cells (heap w2)) (firstFreeChunk (pool w2)) [] ∧
    firstBlock (pool w2) = firstBlock (pool small_w2) ∧
    usedChunks (pool w2) = usedChunks (pool small_w2) ∧
    blocks (heap w2) = blocks (heap small_w2).
Proof.
  apply (@lifo_reuse small (Ptr 0 0) small_w2).
  - vm_compute. reflexivity.
  - reflexivity.
Defined.

Lemma growth_creates_two_slabs_witness :
  ∃ ps w', allocate_n 3 (initial (I := small) 2) = Ok ps w' ∧ length ps = 3%nat ∧
           slab_count w' = 2%nat.
Proof.
  apply (@growth_creates_two_slabs small small_wf 2 3); [lia|].
  vm_compute. discriminate.
Defined.

Lemma slot_size_witness :
  chunkSize (I := small) = Z.max 4 8 ∧
  (8 ≤ 4 → chunkSize (I := small) = 4) ∧
  (4 < 8 → chunkSize (I := small) = 8) ∧
  (∀ b B, blocks (heap small_w5) !! b = Some B → data_size B = chunkSize (I := small) * 2) ∧
  (∀ p w', MemoryPool.allocate small_w5 = Ok p w' →
           ∃ b i, p = slot (I := small) b i ∧ 0 ≤ i < 2 ∧
                  is_Some (blocks (heap w') !! b)).
Proof.
  exact (@slot_size small small_wf small_trace small_w5 small_reach5).
Defined.

Lemma teardown_releases_all_witness :
  ∃ w',
    (∀ fuel, (slab_count small_w5 ≤ fuel)%nat →
             MemoryPool.destructor fuel small_w5 = Some (Ok tt w')) ∧
    blocks (heap w') = ∅ ∧
    firstBlock (pool w') = None ∧
    NoDup (released (heap w')) ∧
    (∀ b, b ∈ released (heap w') ↔ is_Some (blocks (heap small_w5) !! b)) ∧
    length (released (heap w')) = slab_count small_w5 ∧
    destroyed (heap w') = destroyed (heap small_w5) ∧
    destroyed (heap small_w5) = rev (destroy_calls small_trace).
Proof.
  exact (@teardown_releases_all small small_trace small_w5 small_reach5).
Defined.

Lemma cursor_in_range_witness :
  0 ≤ usedChunks (pool small_w2) ≤ 2 ∧
  (firstBlock (pool small_w2) = None → usedChunks (pool small_w2) = 2) ∧
  (firstFreeChunk (pool small_w2) = None →
   match MemoryPool.allocate small_w2 with
   | Ok p w' =>
       ∃ b i, firstBlock (pool w') = Some b ∧
              is_Some (blocks (heap w') !! b) ∧
              p = slot (I := small) b i ∧ 0 ≤ i ≤ 2 - 1 ∧
              usedChunks (pool w') = i + 1
   | BadAlloc w' => w' = small_w2 ∧ avail (heap small_w2) = 0%nat
   | Undefined => False
   end).
Proof.
  exact (@cursor_in_range small small_wf [CAllocate; CAllocate] small_w2 small_reach2).
Defined.

(** ** Order of reuse and misuse of [deallocate] *)

Section Reuse.
Context {I : Instantiation}.

Lemma slot_ok_blocks (h h' : Heap) (p : ptr) :
  blocks h' = blocks h → slot_ok h' p = slot_ok h p.
Proof. unfold slot_ok. by intros ->. Qed.

Lemma allocate_n_app (n m : nat) (w : World) :
  allocate_n (n + m) w =
  (do ps <- allocate_n n; do qs <- allocate_n m; ret (ps ++ qs)) w.
Proof.
  revert w. induction n as [|n IH]; intros w.
  - simpl. unfold bind, ret. by destruct (allocate_n m w).
  - simpl. unfold bind, ret.
    destruct (MemoryPool.allocate w) as [p w1| |]; [|done..].
    rewrite IH. unfold bind, ret.
    destruct (allocate_n n w1) as [ps w2| |]; [|done..].
    by destruct (allocate_n m w2).
Qed.

(** Free-list pop, for any state whose head is a slot holding a link. *)
Lemma allocate_pop (w : World) (p : ptr) (nx : option ptr) :
  firstFreeChunk (pool w) = Some p → slot_ok (heap w) p = true →
  cells (heap w) !! p = Some (Link nx) →
  MemoryPool.allocate w =
  Ok p (mkWorld (mkPool nx (firstBlock (pool w)) (usedChunks (pool w))) (heap w)).
Proof.
  intros Hffc Hok Hp. rewrite allocate_unfold. cbv zeta.
  by rewrite Hffc, Hok, Hp.
Qed.

(** X1.  Slots given back one after the other come out again in the opposite
    order: after [deallocate] of the distinct slots [ps], first to last, the
    next [length ps] calls of [allocate] return them last to first, and then
    the pool object, the blocks and all other slots are as before. *)
Theorem lifo_order (ps : list ptr) :
  ∀ w : World,
    NoDup ps → Forall (λ p, slot_ok (heap w) p = true) ps →
    ∃ w1 w2,
      deallocate_list ps w = Ok tt w1 ∧
      allocate_n (length ps) w1 = Ok (rev ps) w2 ∧
      pool w2 = pool w ∧
      blocks (heap w2) = blocks (heap w) ∧
      fresh (heap w2) = fresh (heap w) ∧
      avail (heap w2) = avail (heap w) ∧
      (∀ q, q ∉ ps → cells (heap w2) !! q = cells (heap w) !! q).
Proof.
  induction ps as [|p ps IH]; intros w Hnd Hok.
  - exists w, w. by split_and!.
  - apply NoDup_cons in Hnd as [Hp Hnd]. apply Forall_cons in Hok as [Hokp Hok].
    pose proof (deallocate_unfold p w) as Hd. cbv zeta in Hd. rewrite Hokp in Hd.
    set (wp := mkWorld (mkPool (Some p) (firstBlock (pool w)) (usedChunks (pool w)))
                 (mkHeap (blocks (heap w))
                    (<[p := Link (firstFreeChunk (pool w))]> (cells (heap w)))
                    (fresh (heap w)) (avail (heap w)) (released (heap w))
                    (destroyed (heap w)))) in Hd.
    destruct (IH wp Hnd) as (w1 & w2 & Hdl & Hal & Hpool & Hbl & Hfr & Hav & Hce).
    { eapply Forall_impl; [exact Hok|]. intros q Hq. simpl in *.
      by rewrite (slot_ok_blocks (heap w)). }
    assert (MemoryPool.allocate w2 =
            Ok p (mkWorld (mkPool (firstFreeChunk (pool w)) (firstBlock (pool w2))
                             (usedChunks (pool w2))) (heap w2))) as Hpop.
    { apply allocate_pop.
      - by rewrite Hpool.
      - by rewrite (slot_ok_blocks (heap w)).
      - rewrite (Hce p Hp). apply lookup_insert_eq. }
    eexists w1, _. split_and!.
    + simpl. unfold bind. by rewrite Hd.
    + simpl length. rewrite <- Nat.add_1_r, allocate_n_app.
      unfold bind at 1. rewrite Hal. simpl. unfold bind, ret.
      by rewrite Hpop.
    + simpl. rewrite Hpool. by destruct (pool w).
    + done.
    + done.
    + done.
    + intros q Hq. apply not_elem_of_cons in Hq as [Hne Hq]. simpl.
      rewrite (Hce q Hq). simpl. by rewrite lookup_insert_ne.
Qed.

(** X2.  A double free is not noticed and ties the free list into a loop:
    after two [deallocate(p)] in a row every [allocate] returns [p] again,
    whatever the number of calls, and the pool never takes a fresh slot. *)
Theorem double_free_aliases (p : ptr) (w : World) :
  slot_ok (heap w) p = true →
  ∃ w2,
    (MemoryPool.deallocate p;; MemoryPool.deallocate p) w = Ok tt w2 ∧
    firstBlock (pool w2) = firstBlock (pool w) ∧
    usedChunks (pool w2) = usedChunks (pool w) ∧
    blocks (heap w2) = blocks (heap w) ∧
    ∀ n, allocate_n n w2 = Ok (replicate n p) w2.
Proof.
  intros Hok. unfold bind. rewrite deallocate_unfold. cbv zeta. rewrite Hok.
  rewrite deallocate_unfold. cbv zeta. simpl.
  rewrite (slot_ok_blocks (heap w)) by done. rewrite Hok.
  eexists. split; [done|]. split_and!; [done..|].
  intros n. induction n as [|n IH]; [done|].
  simpl. unfold bind, ret.
  erewrite allocate_pop; [| |by rewrite (slot_ok_blocks (heap w))|apply lookup_insert_eq];
    [|done].
  simpl. by rewrite IH.
Qed.

End Reuse.

(** ** What no call does before the pool is torn down *)

Section Stability.
Context {I : Instantiation}.

(** X3.  No call on a pool takes storage away or writes where it was not
    asked to: every block alive before a call is alive after it, unchanged,
    so every slot address stays valid; the number of blocks does not go down
    and nothing is deleted; [allocate] writes no slot at all, and
    [deallocate], [construct] and [destroy] write only the slot they are
    given. *)
Theorem storage_stable (tr : list call) (w : World) (c : call)
    (r : option ptr) (w' : World) :
  reachable tr w → perform c w = Ok r w' →
  (∀ b B, blocks (heap w) !! b = Some B → blocks (heap w') !! b = Some B) ∧
  (∀ p, slot_ok (heap w) p = true → slot_ok (heap w') p = true) ∧
  (slab_count w ≤ slab_count w')%nat ∧
  released (heap w') = [] ∧
  match c with
  | CAllocate => cells (heap w') = cells (heap w)
  | CDeallocate p | CConstruct p _ | CDestroy p =>
      ∀ q, q ≠ p → cells (heap w') !! q = cells (heap w) !! q
  end.
Proof.
  intros Hr Hc.
  assert (reachable (tr ++ [c]) w') as Hr' by (by eapply reach_ok).
  destruct (reachable_slabs tr w Hr) as (Hown & _ & _).
  destruct (reachable_slabs _ w' Hr') as (Hown' & Hrel' & _).
  assert (∀ b B, blocks (heap w) !! b = Some B → blocks (heap w') !! b = Some B)
    as Hsub.
  { intros b B HB. destruct Hown as [_ Hbl], Hown' as [_ Hbl'].
    rewrite Hbl in HB. rewrite Hbl'. case_decide; [|done].
    rewrite decide_True; [done|].
    assert (fresh (heap w) ≤ fresh (heap w'))%nat; [|lia].
    apply perform_Ok in Hc. destruct c as [|p|p val|p].
    - destruct Hc as (p & _ & Hc). rewrite allocate_unfold in Hc.
      cbv zeta in Hc. repeat case_match; simplify_eq; simpl; lia.
    - rewrite deallocate_unfold in Hc. cbv zeta in Hc.
      case_match; simplify_eq; simpl; lia.
    - rewrite construct_unfold in Hc. cbv zeta in Hc.
      case_match; simplify_eq; simpl; lia.
    - rewrite destroy_unfold in Hc. cbv zeta in Hc.
      repeat case_match; simplify_eq; simpl; lia. }
  split; [done|]. split_and!.
  - intros p. unfold slot_ok.
    destruct (blocks (heap w) !! blk p) as [B|] eqn:HB; [|done].
    by rewrite (Hsub _ _ HB).
  - rewrite (owns_slabs_size _ w Hown), (owns_slabs_size _ w' Hown').
    destruct Hown as [_ Hbl], Hown' as [_ Hbl'].
    destruct (decide (fresh (heap w) ≤ fresh (heap w'))%nat) as [|Hlt]; [done|].
    exfalso. specialize (Hbl (fresh (heap w'))).
    rewrite decide_True in Hbl by lia. apply Hsub in Hbl.
    rewrite Hbl' in Hbl. by rewrite decide_False in Hbl by lia.
  - done.
  - apply perform_Ok in Hc. destruct c as [|p|p val|p].
    + destruct Hc as (p & _ & Hc). rewrite allocate_unfold in Hc.
      cbv zeta in Hc. repeat case_match; by simplify_eq.
    + rewrite deallocate_unfold in Hc. cbv zeta in Hc.
      case_match; simplify_eq. intros q Hq. simpl. by rewrite lookup_insert_ne.
    + rewrite construct_unfold in Hc. cbv zeta in Hc.
      case_match; simplify_eq. intros q Hq. simpl. by rewrite lookup_insert_ne.
    + rewrite destroy_unfold in Hc. cbv zeta in Hc.
      repeat case_match; simplify_eq. intros q Hq. simpl.
      by rewrite lookup_insert_ne.
Qed.

Lemma destructor_short (fuel : nat) :
  ∀ n w, owns_slabs n w → (fuel < n)%nat → MemoryPool.destructor fuel w = None.
Proof.
  induction fuel as [|fuel IH]; intros n w Hown Hlt.
  - destruct n as [|n]; [lia|]. destruct Hown as [Hfb _]. simpl.
    by rewrite Hfb.
  - destruct n as [|n]; [lia|].
    destruct (destructor_step n w Hown) as (w1 & Hstep & Hown1 & _).
    destruct Hown as [Hfb _]. simpl. rewrite Hfb. simpl. rewrite Hstep.
    apply (IH n); [done|lia].
Qed.

(** X4.  The loop of [~MemoryPool] takes exactly as many iterations as the
    pool has blocks, no fewer, and deletes the blocks from the newest to the
    oldest (the delete log, latest first, reads [0, 1, ...]).  On the pool
    left behind the loop does nothing. *)
Theorem teardown_order (tr : list call) (w : World) :
  reachable tr w →
  ∃ w',
    released (heap w') = seq 0 (slab_count w) ∧
    (∀ fuel, MemoryPool.destructor fuel w =
             if decide (slab_count w ≤ fuel)%nat then Some (Ok tt w') else None) ∧
    (∀ fuel, MemoryPool.destructor fuel w' = Some (Ok tt w')).
Proof.
  intros Hr. destruct (reachable_slabs tr w Hr) as (Hown & Hrel & _).
  destruct (destructor_owns _ w Hown) as (w' & Hrun & _ & Hfb & Hrel' & _).
  rewrite Hrel, app_nil_r in Hrel'.
  rewrite (owns_slabs_size _ w Hown).
  exists w'. split_and!; [done| |].
  - intros fuel. case_decide.
    + by eapply destructor_fuel_mono.
    + apply (destructor_short fuel (fresh (heap w))); [done|lia].
  - intros fuel. destruct fuel; simpl; by rewrite Hfb.
Qed.

End Stability.

(** ** Bump allocation in general *)

Section Bump.
Context {I : Instantiation} {WF : WellFormed I}.

Lemma front_Some n b : front n = Some b → n = S b.
Proof. destruct n; intros; by simplify_eq/=. Qed.

Lemma front_None n : front n = None → n = 0%nat.
Proof. by destruct n. Qed.

Lemma slot_wrap b i :
  0 ≤ i < growSize → Ptr b (wrap (chunkSize * i)) = slot b i.
Proof. intros. unfold slot. by rewrite wrap_slot. Qed.

Lemma bump_address_at (q : nat) (r : Z) (c : nat) :
  0 ≤ r < growSize → Z.of_nat c = Z.of_nat q * growSize + r →
  bump_address c = slot q r.
Proof.
  intros Hr Hc. unfold bump_address.
  rewrite <- (Z.div_unique_pos (Z.of_nat c) growSize (Z.of_nat q) r) by lia.
  rewrite <- (Z.mod_unique_pos (Z.of_nat c) growSize (Z.of_nat q) r) by lia.
  by rewrite Nat2Z.id.
Qed.

Lemma allocate_bumping (a c : nat) (w : World) :
  bumping a c w → Z.of_nat c < Z.of_nat a * growSize →
  ∃ w', MemoryPool.allocate w = Ok (bump_address c) w' ∧ bumping a (S c) w'.
Proof.
  intros (Hffc & Hown & [Hran Hnone] & Hpos & Hav & Htot) Hc.
  pose proof growSize_pos as Hg.
  unfold carved_total in Htot.
  rewrite allocate_unfold. cbv zeta. rewrite Hffc.
  destruct (firstBlock (pool w)) as [b|] eqn:Hfb.
  - assert (fresh (heap w) = S b) as Hfr
      by (destruct Hown as [E _]; apply front_Some; congruence).
    specialize (Hpos ltac:(done)).
    destruct (decide (usedChunks (pool w) = growSize)) as [Hfull|Hroom].
    + (* the front block is full *)
      rewrite Hfull, (proj2 (Z.geb_le _ _)) by lia.
      destruct (avail (heap w)) as [|k] eqn:Hk; [nia|].
      rewrite slot_wrap by lia.
      rewrite (bump_address_at (fresh (heap w)) 0 c) by (rewrite ?Hfr; lia).
      eexists. split; [done|].
      split; [done|].
    split; [pose proof (owns_slabs_grow w k Hown) as G; by rewrite Hfb in G|].
      change (wrap (0 + 1)) with 1. unfold cursor_ok, carved_total. simpl.
      rewrite Hfr. split_and!; try done; lia.
    + rewrite Z.geb_leb, (proj2 (Z.leb_gt _ _)) by lia.
      destruct Hown as [Hfb' Hbl]. rewrite Hbl, decide_True by lia.
      rewrite slot_wrap, wrap_cursor by lia.
      rewrite (bump_address_at b (usedChunks (pool w)) c) by lia.
      eexists. split; [done|].
      split; [done|]. split; [split; [simpl; congruence|done]|].
      unfold cursor_ok, carved_total. simpl.
      split_and!; try done; lia.
  - (* no block yet *)
    assert (fresh (heap w) = 0%nat) as Hfr
      by (destruct Hown as [E _]; apply front_None; congruence).
    rewrite (Hnone eq_refl), (proj2 (Z.geb_le _ _)) by lia.
    destruct (avail (heap w)) as [|k] eqn:Hk; [nia|].
    rewrite slot_wrap by lia.
    rewrite (bump_address_at (fresh (heap w)) 0 c) by (rewrite ?Hfr; lia).
    eexists. split; [done|].
    split; [done|].
    split; [pose proof (owns_slabs_grow w k Hown) as G; by rewrite Hfb in G|].
    change (wrap (0 + 1)) with 1. unfold cursor_ok, carved_total. simpl.
    rewrite Hfr. split_and!; try done; lia.
Qed.

Lemma allocate_n_bumping (a n : nat) :
  ∀ c w, bumping a c w → Z.of_nat (c + n) ≤ Z.of_nat a * growSize →
         ∃ w', allocate_n n w = Ok (map bump_address (seq c n)) w' ∧
               bumping a (c + n) w'.
Proof.
  induction n as [|n IH]; intros c w Hb Hc.
  - exists w. rewrite Nat.add_0_r. by split.
  - destruct (allocate_bumping a c w Hb) as (w1 & Hp & H1); [lia|].
    destruct (IH (S c) w1 H1) as (w' & Hps & H'); [lia|].
    exists w'. split.
    + simpl. unfold bind, ret. by rewrite Hp, Hps.
    + by replace (c + S n)%nat with (S c + n)%nat by lia.
Qed.

(** X5.  On a fresh pool, [n] calls of [allocate] with no [deallocate] in
    between return, as long as the free store can provide the blocks: call
    number [k] (from 0) gets slot [k mod growSize] of block [k / growSize].
    Blocks are filled one after the other and a block is created only when
    the one before is full, so the pool ends with [ceil(n / growSize)]
    blocks. *)
Theorem bump_sequence (a n : nat) :
  Z.of_nat n ≤ Z.of_nat a * growSize →
  ∃ w',
    allocate_n n (initial a) = Ok (map bump_address (seq 0 n)) w' ∧
    Z.of_nat (slab_count w') = (Z.of_nat n + growSize - 1) / growSize ∧
    carved_total w' = Z.of_nat n ∧
    firstFreeChunk (pool w') = None.
Proof.
  intros Hn. pose proof growSize_pos as Hg.
  destruct (allocate_n_bumping a n 0%nat (initial a)) as (w' & Hps & H').
  - split; [done|]. split.
    + by destruct (reachable_slabs [] (initial a) (reach_init a)).
    + split; [split; simpl; [lia|done]|]. by split_and!.
  - by rewrite Nat.add_0_l.
  - exists w'. rewrite Nat.add_0_l in H'.
    destruct H' as (Hffc & Hown & [Hran Hnone] & Hpos & _ & Htot).
    split_and!; [done| |done|done].
    rewrite (owns_slabs_size _ w' Hown). unfold carved_total in Htot.
    destruct (firstBlock (pool w')) as [b|] eqn:Hfb.
    + assert (fresh (heap w') = S b) as ->
        by (destruct Hown as [E _]; apply front_Some; congruence).
      specialize (Hpos ltac:(done)).
      apply (Z.div_unique_pos _ _ _ (usedChunks (pool w') - 1)); lia.
    + assert (fresh (heap w') = 0%nat) as ->
        by (destruct Hown as [E _]; apply front_None; congruence).
      symmetry. apply Z.div_small. lia.
Qed.

End Bump.

(** ** Accounting for slots *)

Section Accounting.
Context {I : Instantiation} {WF : WellFormed I}.

Lemma free_list_unique ce head fl1 :
  ∀ fl2, free_list ce head fl1 → free_list ce head fl2 → fl1 = fl2.
Proof.
  revert head. induction fl1 as [|p fl1 IH]; intros head fl2 H1 H2.
  - simpl in H1. subst. by destruct fl2 as [|q fl2]; [|destruct H2].
  - destruct H1 as (-> & nx & Hp & H1).
    destruct fl2 as [|q fl2]; [done|].
    destruct H2 as ([= <-] & nx' & Hp' & H2). simplify_eq.
    f_equal. by eapply IH.
Qed.

Lemma remove_one_length p l :
  p ∈ l → S (length (remove_one p l)) = length l.
Proof. intros Hin. by rewrite (remove_one_perm p l Hin) at 2. Qed.

Lemma run_free_list w live :
  run w live →
  ∃ fl, free_list (cells (heap w)) (firstFreeChunk (pool w)) fl ∧
        (∀ p, p ∈ live → p ∉ fl) ∧
        (∀ p, p ∈ fl → slot_ok (heap w) p = true).
Proof.
  intros Hr. destruct (run_slabs w live Hr) as [Hown Hcur].
  destruct (run_disjoint w live Hr) as (fl & Hfl & Hnd & Hcv).
  exists fl. split; [done|]. split.
  - by apply NoDup_app in Hnd as (_ & Hdisj & _).
  - intros p Hp. apply carved_slot_ok; [done..|].
    rewrite Forall_forall in Hcv. apply Hcv, elem_of_app. by right.
Qed.

Lemma run_count w live :
  run w live →
  ∃ fl, free_list (cells (heap w)) (firstFreeChunk (pool w)) fl ∧
        Z.of_nat (length live) + Z.of_nat (length fl) = carved_total w.
Proof.
  induction 1 as [a|w live p w' Hr IH Hc|w live w' Hr IH Hc
                 |w live p w' Hr IH Hin Hc|w live p val w' Hr IH Hin Hc
                 |w live p w' Hr IH Hin Hc].
  - by exists [].
  - destruct IH as (fl & Hfl & Hcount).
    destruct (run_slabs w live Hr) as [[Hfb Hbl] [Hran Hnone]].
    unfold carved_total in *. rewrite allocate_unfold in Hc. cbv zeta in Hc.
    destruct (firstFreeChunk (pool w)) as [q|] eqn:Hffc.
    + destruct (slot_ok (heap w) q); [|done].
      destruct (cells (heap w) !! q) as [[nx| |]|] eqn:Hq; simplify_eq.
      destruct fl as [|q' fl]; [done|].
      destruct Hfl as ([= <-] & nx' & Hq' & Hfl). simplify_eq.
      exists fl. split; [done|]. simpl in *. lia.
    + apply free_list_empty in Hfl as ->. simpl in Hcount.
      destruct (usedChunks (pool w) >=? growSize) eqn:Hge.
      * apply Z.geb_le in Hge.
        destruct (avail (heap w)) as [|k]; simplify_eq.
        exists []. split; [done|]. simpl. change (wrap (0 + 1)) with 1.
        destruct (firstBlock (pool w)) as [b|] eqn:Hb.
        -- symmetry in Hfb. apply front_Some in Hfb. rewrite Hfb. lia.
        -- symmetry in Hfb. apply front_None in Hfb. rewrite Hfb. lia.
      * rewrite Z.geb_leb in Hge. apply Z.leb_gt in Hge.
        destruct (firstBlock (pool w)) as [b|] eqn:Hb; [|done].
        destruct (blocks (heap w) !! b); simplify_eq.
        exists []. split; [done|]. simpl. rewrite wrap_cursor by lia. lia.
  - by apply allocate_throw in Hc as ->.
  - destruct IH as (fl & Hfl & Hcount).
    destruct (run_free_list w live Hr) as (fl' & Hfl' & Hdisj & _).
    rewrite (free_list_unique _ _ _ _ Hfl' Hfl) in Hdisj.
    pose proof (remove_one_length p live Hin) as Hlen.
    rewrite deallocate_unfold in Hc. cbv zeta in Hc.
    destruct (slot_ok (heap w) p); simplify_eq.
    exists (p :: fl). split.
    + split; [done|]. exists (firstFreeChunk (pool w)). simpl.
      rewrite lookup_insert_eq. split; [done|].
      apply free_list_frame; [done|]. by apply Hdisj.
    + change (carved_total _) with (carved_total w). simpl length. lia.
  - destruct IH as (fl & Hfl & Hcount).
    destruct (run_free_list w live Hr) as (fl' & Hfl' & Hdisj & _).
    rewrite (free_list_unique _ _ _ _ Hfl' Hfl) in Hdisj.
    rewrite construct_unfold in Hc. cbv zeta in Hc.
    destruct (slot_ok (heap w) p); simplify_eq.
    exists fl. split; [|done]. simpl.
    apply free_list_frame; [done|]. by apply Hdisj.
  - destruct IH as (fl & Hfl & Hcount).
    destruct (run_free_list w live Hr) as (fl' & Hfl' & Hdisj & _).
    rewrite (free_list_unique _ _ _ _ Hfl' Hfl) in Hdisj.
    rewrite destroy_unfold in Hc. cbv zeta in Hc.
    repeat case_match; simplify_eq.
    exists fl. split; [|done]. simpl.
    apply free_list_frame; [done|]. by apply Hdisj.
Qed.

Lemma reachable_front_used tr w :
  reachable tr w → firstBlock (pool w) ≠ None → 1 ≤ usedChunks (pool w).
Proof.
  induction 1 as [a|tr w c r w' Hr IH Hc|tr w c w' Hr IH Hc]; [done| |].
  - apply perform_Ok in Hc. destruct c as [|p|p val|p].
    + destruct Hc as (p & _ & Hc). rewrite allocate_unfold in Hc.
      cbv zeta in Hc. destruct (reachable_cursor tr w Hr) as [Hran _].
      destruct (firstFreeChunk (pool w)).
      * repeat case_match; by simplify_eq.
      * destruct (usedChunks (pool w) >=? growSize) eqn:Hge.
        -- destruct (avail (heap w)); by simplify_eq.
        -- rewrite Z.geb_leb in Hge. apply Z.leb_gt in Hge.
           repeat case_match; simplify_eq. simpl. intros _.
           rewrite wrap_cursor by lia. lia.
    + rewrite deallocate_unfold in Hc. cbv zeta in Hc.
      case_match; by simplify_eq.
    + rewrite construct_unfold in Hc. cbv zeta in Hc.
      case_match; by simplify_eq.
    + rewrite destroy_unfold in Hc. cbv zeta in Hc.
      repeat case_match; by simplify_eq.
  - by apply perform_throw in Hc as ->.
Qed.

(** X6.  No slot is lost: for a client that only gives back slots it holds,
    the slots it holds and the slots on the free list together number
    exactly the slots bump allocation has handed out; that number is at most
    [growSize] per block and more than [growSize] per block but one.  So
    the pool never has a block without a slot handed out. *)
Theorem slots_conserved (w : World) (live : list ptr) :
  run w live →
  ∃ fl,
    free_list (cells (heap w)) (firstFreeChunk (pool w)) fl ∧
    Z.of_nat (length live) + Z.of_nat (length fl) = carved_total w ∧
    carved_total w ≤ Z.of_nat (slab_count w) * growSize ∧
    Z.of_nat (slab_count w) * growSize < carved_total w + growSize.
Proof.
  intros Hr. destruct (run_count w live Hr) as (fl & Hfl & Hcount).
  exists fl. split; [done|]. split; [done|].
  destruct (run_slabs w live Hr) as [Hown [Hran Hnone]].
  destruct (run_reachable w live Hr) as [tr Hreach].
  pose proof (reachable_front_used tr w Hreach) as Hpos.
  rewrite (owns_slabs_size _ w Hown). destruct Hown as [Hfb _].
  pose proof growSize_pos. unfold carved_total in *.
  destruct (firstBlock (pool w)) as [b|] eqn:Hb.
  - symmetry in Hfb. apply front_Some in Hfb. rewrite Hfb.
    specialize (Hpos ltac:(done)). lia.
  - symmetry in Hfb. apply front_None in Hfb. rewrite Hfb. lia.
Qed.

End Accounting.

(** ** Slots in a block, failure of [allocate], and the life of a node *)

Section Client.
Context {I : Instantiation} {WF : WellFormed I}.

(** X7.  [getChunk] cuts the [data] array of a block into [growSize] slots
    that do not overlap and do not leave the array: for indices
    [i < j < growSize] the slot at [i] starts inside the array and ends
    before the slot at [j] starts, which ends inside the array.  A slot is
    large enough for an element and for a free-list link. *)
Theorem getChunk_layout (tr : list call) (w : World) (b : nat) (i j : Z) :
  reachable tr w → is_Some (blocks (heap w) !! b) →
  0 ≤ i → i < j → j < growSize →
  ∃ B p q,
    blocks (heap w) !! b = Some B ∧
    getChunk (Some b) i w = Ok p w ∧
    getChunk (Some b) j w = Ok q w ∧
    blk p = b ∧ blk q = b ∧
    0 ≤ off p ∧
    off p + chunkSize ≤ off q ∧
    off q + chunkSize ≤ data_size B ∧
    sizeof_T ≤ chunkSize ∧ sizeof_Chunk ≤ chunkSize.
Proof.
  intros Hr [B HB] Hi Hij Hj.
  destruct (reachable_slabs tr w Hr) as ([_ Hbl] & _).
  pose proof chunkSize_pos as Hcs.
  pose proof HB as HB'. rewrite Hbl in HB'. case_decide; [|done].
  injection HB' as <-.
  eexists _, _, _. split; [exact HB|].
  unfold getChunk. rewrite HB. split; [done|]. split; [done|].
  simpl. rewrite !wrap_slot, wrap_data by lia.
  split_and!; try done; try nia.
  - rewrite chunkSize_max. lia.
  - rewrite chunkSize_max. lia.
Qed.

(** X8.  For a client that only gives back slots it holds, [allocate] never
    has undefined behaviour, a throw leaves everything as it was, and it
    throws in one situation only: the free list is empty, the front block is
    used up (or there is none) and the free store has no block left. *)
Theorem allocate_failure_exact (w : World) (live : list ptr) :
  run w live →
  MemoryPool.allocate w ≠ Undefined ∧
  (∀ w', MemoryPool.allocate w = BadAlloc w' → w' = w) ∧
  ((∃ w', MemoryPool.allocate w = BadAlloc w') ↔
   firstFreeChunk (pool w) = None ∧ usedChunks (pool w) = growSize ∧
   avail (heap w) = 0%nat).
Proof.
  intros Hr. split; [|split; [intros w'; apply allocate_throw|]].
  all: destruct (run_slabs w live Hr) as [[Hfb Hbl] [Hran Hnone]].
  all: destruct (run_free_list w live Hr) as (fl & Hfl & _ & Hok).
  all: rewrite allocate_unfold; cbv zeta.
  all: destruct (firstFreeChunk (pool w)) as [p|] eqn:Hffc.
  - destruct fl as [|q fl]; [done|]. destruct Hfl as ([= <-] & nx & Hp & _).
    rewrite Hok, Hp by left. done.
  - destruct (usedChunks (pool w) >=? growSize) eqn:Hge.
    + by destruct (avail (heap w)).
    + rewrite Z.geb_leb in Hge. apply Z.leb_gt in Hge.
      destruct (firstBlock (pool w)) as [b|] eqn:Hb;
        [|specialize (Hnone eq_refl); lia].
      rewrite Hbl, decide_True by (apply front_lt; congruence). done.
  - destruct fl as [|q fl]; [done|]. destruct Hfl as ([= <-] & nx & Hp & _).
    rewrite Hok, Hp by left. split; [by intros [? ?]|by intros [? _]].
  - destruct (usedChunks (pool w) >=? growSize) eqn:Hge.
    + apply Z.geb_le in Hge. destruct (avail (heap w)).
      * split; [intros _; split_and!; [done|lia|done]|intros _; by eexists].
      * split; [by intros [? ?]|by intros (_ & _ & ?)].
    + rewrite Z.geb_leb in Hge. apply Z.leb_gt in Hge.
      destruct (firstBlock (pool w)) as [b|] eqn:Hb;
        [|specialize (Hnone eq_refl); lia].
      rewrite Hbl, decide_True by (apply front_lt; congruence).
      split; [by intros [? ?]|intros (_ & ? & _); lia].
Qed.

(** X9.  The life of a container node through the adapter: once
    [allocate(1)] has returned [p], [construct(p, val)], [destroy(p)] and
    [deallocate(p, n)] all return, for every [n] (the count is not looked
    at), and the next [allocate(1)] returns [p] again with the pool object
    and the blocks as they were after the first [allocate]; [~T()] has run
    once, at [p], and the client is back where it was, holding [p]. *)
Theorem node_lifecycle (w : World) (live : list ptr) (p : ptr) (w1 : World)
    (val : T) (n : Z) :
  run w live → Allocator.allocate 1 None w = Ok p w1 →
  ∃ w2 w3 w4 w5,
    Allocator.construct p val w1 = Ok tt w2 ∧
    cells (heap w2) !! p = Some (Payload val) ∧
    Allocator.destroy p w2 = Ok tt w3 ∧
    Allocator.deallocate p n w3 = Ok tt w4 ∧
    firstFreeChunk (pool w4) = Some p ∧
    Allocator.allocate 1 None w4 = Ok p w5 ∧
    pool w5 = pool w1 ∧
    blocks (heap w5) = blocks (heap w1) ∧
    destroyed (heap w5) = p :: destroyed (heap w1) ∧
    run w5 (p :: live).
Proof.
  intros Hr Ha.
  change (Allocator.allocate 1 None w) with (MemoryPool.allocate w) in Ha.
  assert (run w1 (p :: live)) as Hr1 by (by eapply run_allocate).
  assert (p ∈ p :: live) as Hin by left.
  pose proof (live_slot_ok w1 (p :: live) p Hr1 Hin) as Hok1.
  pose proof (construct_unfold p val w1) as Hc. cbv zeta in Hc.
  rewrite Hok1 in Hc.
  match type of Hc with _ = Ok tt ?x => set (w2 := x) in * end.
  assert (run w2 (p :: live)) as Hr2 by (by eapply run_construct).
  assert (cells (heap w2) !! p = Some (Payload val)) as Hp2
    by apply lookup_insert_eq.
  pose proof (destroy_unfold p w2) as Hd. cbv zeta in Hd.
  rewrite (live_slot_ok w2 (p :: live) p Hr2 Hin), Hp2 in Hd.
  match type of Hd with _ = Ok tt ?x => set (w3 := x) in * end.
  assert (run w3 (p :: live)) as Hr3 by (by eapply run_destroy).
  pose proof (deallocate_unfold p w3) as Hf. cbv zeta in Hf.
  rewrite (live_slot_ok w3 (p :: live) p Hr3 Hin) in Hf.
  match type of Hf with _ = Ok tt ?x => set (w4 := x) in * end.
  assert (run w4 live) as Hr4.
  { pose proof (run_deallocate w3 (p :: live) p w4 Hr3 Hin Hf) as G.
    simpl in G. by rewrite decide_True in G. }
  assert (MemoryPool.allocate w4 =
          Ok p (mkWorld (mkPool (firstFreeChunk (pool w1)) (firstBlock (pool w4))
                           (usedChunks (pool w4))) (heap w4))) as Hpop.
  { apply allocate_pop; [done| |apply lookup_insert_eq].
    rewrite <- Hok1. by apply slot_ok_blocks. }
  eexists w2, w3, w4, _.
  split_and!; [done|done|done|done|done|exact Hpop| |done|done|].
  - simpl. by destruct (pool w1).
  - eapply run_allocate; [exact Hr4|exact Hpop].
Qed.

End Client.

(** ** The small instantiation, continued *)

Lemma lifo_order_witness :
  ∃ w1 w2,
    deallocate_list [Ptr 0 0; Ptr 0 8] small_w2 = Ok tt w1 ∧
    allocate_n 2 w1 = Ok [Ptr 0 8; Ptr 0 0] w2 ∧
    pool w2 = pool small_w2 ∧
    blocks (heap w2) = blocks (heap small_w2) ∧
    fresh (heap w2) = fresh (heap small_w2) ∧
    avail (heap w2) = avail (heap small_w2) ∧
    (∀ q, q ∉ [Ptr 0 0; Ptr 0 8] →
          cells (heap w2) !! q = cells (heap small_w2) !! q).
Proof.
  apply (@lifo_order small [Ptr 0 0; Ptr 0 8] small_w2).
  - apply (bool_decide_unpack _). vm_compute. exact Logic.I.
  - repeat constructor; vm_compute; reflexivity.
Defined.

Lemma double_free_aliases_witness :
  ∃ w2,
    (MemoryPool.deallocate (Ptr 0 0);; MemoryPool.deallocate (Ptr 0 0)) small_w2
    = Ok tt w2 ∧
    firstBlock (pool w2) = firstBlock (pool small_w2) ∧
    usedChunks (pool w2) = usedChunks (pool small_w2) ∧
    blocks (heap w2) = blocks (heap small_w2) ∧
    ∀ n, allocate_n n w2 = Ok (replicate n (Ptr 0 0)) w2.
Proof.
  apply (@double_free_aliases small (Ptr 0 0) small_w2).
  vm_compute. reflexivity.
Defined.

Lemma storage_stable_witness :
  (∀ b B, blocks (heap small_w2) !! b = Some B → blocks (heap small_w6) !! b = Some B) ∧
  (∀ p, slot_ok (heap small_w2) p = true → slot_ok (heap small_w6) p = true) ∧
  (slab_count small_w2 ≤ slab_count small_w6)%nat ∧
  released (heap small_w6) = [] ∧
  cells (heap small_w6) = cells (heap small_w2).
Proof.
  apply (@storage_stable small [CAllocate; CAllocate] small_w2 CAllocate
           (Some (Ptr 1 0)) small_w6 small_reach2).
  vm_compute. reflexivity.
Defined.

Lemma teardown_order_witness :
  ∃ w',
    released (heap w') = seq 0 (slab_count small_w5) ∧
    (∀ fuel, MemoryPool.destructor fuel small_w5 =
             if decide (slab_count small_w5 ≤ fuel)%nat
             then Some (Ok tt w') else None) ∧
    (∀ fuel, MemoryPool.destructor fuel w' = Some (Ok tt w')).
Proof.
  exact (@teardown_order small small_trace small_w5 small_reach5).
Defined.

Lemma bump_sequence_witness :
  ∃ w',
    allocate_n 3 (initial (I := small) 2) =
    Ok (map (bump_address (I := small)) (seq 0 3)) w' ∧
    Z.of_nat (slab_count w') = (Z.of_nat 3 + 2 - 1) / 2 ∧
    carved_total w' = Z.of_nat 3 ∧
    firstFreeChunk (pool w') = None.
Proof.
  apply (@bump_sequence small small_wf 2 3).
  vm_compute. discriminate.
Defined.

Lemma slots_conserved_witness :
  ∃ fl,
    free_list (cells (heap small_w3)) (firstFreeChunk (pool small_w3)) fl ∧
    Z.of_nat (length [Ptr 0 8]) + Z.of_nat (length fl) = carved_total small_w3 ∧
    carved_total small_w3 ≤ Z.of_nat (slab_count small_w3) * 2 ∧
    Z.of_nat (slab_count small_w3) * 2 < carved_total small_w3 + 2.
Proof.
  exact (@slots_conserved small small_wf small_w3 [Ptr 0 8] small_run3).
Defined.

Lemma getChunk_layout_witness :
  ∃ B p q,
    blocks (heap small_w2) !! 0%nat = Some B ∧
    getChunk (Some 0%nat) 0 small_w2 = Ok p small_w2 ∧
    getChunk (Some 0%nat) 1 small_w2 = Ok q small_w2 ∧
    blk p = 0%nat ∧ blk q = 0%nat ∧
    0 ≤ off p ∧
    off p + chunkSize (I := small) ≤ off q ∧
    off q + chunkSize (I := small) ≤ data_size B ∧
    4 ≤ chunkSize (I := small) ∧ 8 ≤ chunkSize (I := small).
Proof.
  apply (@getChunk_layout small small_wf [CAllocate; CAllocate] small_w2 0%nat 0 1
           small_reach2).
  - exists small_block0. vm_compute. reflexivity.
  - lia.
  - lia.
  - vm_compute. reflexivity.
Defined.

Lemma allocate_failure_exact_witness :
  MemoryPool.allocate (initial (I := small) 0) ≠ Undefined ∧
  (∀ w', MemoryPool.allocate (initial (I := small) 0) = BadAlloc w' →
         w' = initial 0) ∧
  ((∃ w', MemoryPool.allocate (initial (I := small) 0) = BadAlloc w') ↔
   firstFreeChunk (pool (initial (I := small) 0)) = None ∧
   usedChunks (pool (initial (I := small) 0)) = 2 ∧
   avail (heap (initial (I := small) 0)) = 0%nat).
Proof.
  exact (@allocate_failure_exact small small_wf (initial 0) [] (run_init 0)).
Defined.

Lemma node_lifecycle_witness :
  ∃ w2 w3 w4 w5,
    Allocator.construct (I := small) (Ptr 0 0) 7 small_w1 = Ok tt w2 ∧
    cells (heap w2) !! Ptr 0 0 = Some (@Payload small 7) ∧
    Allocator.destroy (Ptr 0 0) w2 = Ok tt w3 ∧
    Allocator.deallocate (Ptr 0 0) 5 w3 = Ok tt w4 ∧
    firstFreeChunk (pool w4) = Some (Ptr 0 0) ∧
    Allocator.allocate 1 None w4 = Ok (Ptr 0 0) w5 ∧
    pool w5 = pool small_w1 ∧
    blocks (heap w5) = blocks (heap small_w1) ∧
    destroyed (heap w5) = Ptr 0 0 :: destroyed (heap small_w1) ∧
    run w5 [Ptr 0 0].
Proof.
  apply (@node_lifecycle small small_wf (initial 3) [] (Ptr 0 0) small_w1 7 5
           (run_init 3)).
  vm_compute. reflexivity.
Defined.
